(** * The Ruby extension bridge of facter (lib/src/ruby/module.cc) and the
      scoped environment override (lib/src/util/scoped_env.cc)

    A shallow embedding of [facter::ruby::module] and [facter::util::scoped_env].
    The members of the C++ object become the fields of a [state] record that is
    threaded through every member function; a member function that can leave
    through [rb_raise] returns an [outcome].  Everything the bridge consumes but
    does not implement (the file system, the embedded interpreter, process
    execution, the native collection) is gathered in a [World] record, so the
    theorems hold for every behaviour of these collaborators and the examples
    run on concrete ones. *)

From Stdlib Require Import Ascii String.
From stdpp Require Import base option list strings gmap pretty.

Set Warnings "-register-all".

Local Open Scope string_scope.
Local Open Scope list_scope.

(** ** Ruby values *)

(** The values crossing the boundary ([VALUE] in api.hpp).  [FactObj id] is the
    handle of a [Facter::Util::Fact] object, [Object cls s] any other object, of
    class [cls], whose [to_s] answers [s]. *)
Inductive VALUE : Type :=
  | Qnil
  | Qtrue
  | Qfalse
  | Fixnum (z : Z)
  | Symbol (s : string)
  | Str (s : string)
  | Hash (kvs : list (VALUE * VALUE))
  | FactObj (id : nat)
  | Object (cls : string) (s : string).

Definition is_nil (v : VALUE) : bool :=
  match v with Qnil => true | _ => false end.

Definition is_symbol (v : VALUE) : bool :=
  match v with Symbol _ => true | _ => false end.

Definition is_string (v : VALUE) : bool :=
  match v with Str _ => true | _ => false end.

(** [rb_sym_to_s]; applied by the source to symbols only. *)
Definition rb_sym_to_s (v : VALUE) : VALUE :=
  match v with Symbol s => Str s | _ => v end.

(** [String#downcase] on the ASCII letters. *)
Definition downcase_ascii (c : ascii) : ascii :=
  let n := nat_of_ascii c in
  if (65 <=? n)%nat && (n <=? 90)%nat then ascii_of_nat (n + 32) else c.

Fixpoint downcase (s : string) : string :=
  match s with
  | EmptyString => EmptyString
  | String c s' => String (downcase_ascii c) (downcase s')
  end.

(** [rb_funcall(name, rb_intern("downcase"), 0)]; applied to strings only. *)
Definition rb_downcase (v : VALUE) : VALUE :=
  match v with Str s => Str (downcase s) | _ => v end.

(** [s.c_str()] read as a C string: the bytes before the first NUL. *)
Fixpoint c_str (s : string) : string :=
  match s with
  | EmptyString => EmptyString
  | String c s' => if Ascii.eqb c Ascii.zero then EmptyString else String c (c_str s')
  end.

(** No NUL byte in the string. *)
Fixpoint nul_free (s : string) : bool :=
  match s with
  | EmptyString => true
  | String c s' => negb (Ascii.eqb c Ascii.zero) && nul_free s'
  end.

(** [ruby.rb_str_new_cstr(s.c_str())]: a Ruby string of the bytes up to the
    first NUL. *)
Definition rb_str_new_cstr (s : string) : VALUE := Str (c_str s).

(** [rb_hash_lookup(hash, key)] for a symbol key: the value stored under the
    symbol, [Qnil] when the key is absent. *)
Fixpoint hash_lookup_sym (kvs : list (VALUE * VALUE)) (key : string) : VALUE :=
  match kvs with
  | [] => Qnil
  | (Symbol k, v) :: kvs' => if String.eqb k key then v else hash_lookup_sym kvs' key
  | _ :: kvs' => hash_lookup_sym kvs' key
  end.

Fixpoint hash_delete_sym (kvs : list (VALUE * VALUE)) (key : string) : list (VALUE * VALUE) :=
  match kvs with
  | [] => []
  | (Symbol k, v) :: kvs' =>
      if String.eqb k key then hash_delete_sym kvs' key
      else (Symbol k, v) :: hash_delete_sym kvs' key
  | kv :: kvs' => kv :: hash_delete_sym kvs' key
  end.

(** ** Exceptions and outcomes *)

Inductive exception : Type :=
  | Exc (cls : string) (msg : string).

Definition rb_eArgError : string := "ArgumentError".
Definition rb_eTypeError : string := "TypeError".
Definition rb_eNoMethodError : string := "NoMethodError".
Definition ExecutionFailure : string := "Facter::Core::Execution::ExecutionFailure".

(** What a call into the bridge ends with: a value, or a Ruby exception that
    unwinds to the caller ([rb_raise], [rb_jump_tag]). *)
Inductive outcome (A : Type) : Type :=
  | Return (a : A)
  | Raised (e : exception).
Arguments Return {A} a.
Arguments Raised {A} e.

Definition is_raised {A} (o : outcome A) : bool :=
  match o with Raised _ => true | Return _ => false end.

(** ** Logging *)

Inductive log_level : Type := LOG_DEBUG | LOG_INFO | LOG_WARNING | LOG_ERROR.

Definition dquote : string := String (ascii_of_nat 34) EmptyString.
Definition newline : string := String (ascii_of_nat 10) EmptyString.

(** ** Paths *)

Definition ends_with_separator (p : string) : bool :=
  match rev (list_ascii_of_string p) with
  | c :: _ => Ascii.eqb c "/"%char
  | [] => false
  end.

Definition starts_with_separator (p : string) : bool :=
  match p with
  | String c _ => Ascii.eqb c "/"%char
  | EmptyString => false
  end.

(** [path(a) / b] followed by [.string()]: boost::filesystem's append, with the
    POSIX separator.  An empty right operand leaves [a] as it is; a separator is
    put in between unless [a] is empty or ends in one or [b] starts with one. *)
Definition path_append (a b : string) : string :=
  match b with
  | EmptyString => a
  | _ =>
      if starts_with_separator b then a +:+ b
      else match a with
           | EmptyString => b
           | _ => if ends_with_separator a then a +:+ b else a +:+ "/" +:+ b
           end
  end.

(** ** The state of the bridge *)

(** The C++ side of a fact object (fact.hpp): its name and the cached value
    with its resolved flag. *)
Record fact_object : Type := mk_fact {
  fact_name : VALUE;
  fact_value_cached : VALUE;
  fact_resolved : bool
}.

(** Modelled from the spec: [fact::value(VALUE)] of fact.cc, the setter used by
    [ruby_add], forces the cached value of the fact. *)
Definition fact_force_value (v : VALUE) (f : fact_object) : fact_object :=
  {| fact_name := fact_name f; fact_value_cached := v; fact_resolved := true |}.

Section Bridge.

(** The interpreter's own state (globals, objects the bridge does not own). *)
Context {VM : Type}.

(** The members of [module] under their C++ names, then what lives outside the
    object: the native collection it refers to, the fact objects, the process
    environment, the log sink and the interpreter.  [_facts] maps a name to the
    handle [FactObj id] of its fact object, kept as [id]: the only insertion,
    in [create_fact], stores the result of [fact::create]. *)
Record state : Type := mk_state {
  _facts : gmap string nat;
  _search_paths : list string;
  _additional_search_paths : list string;
  _external_search_paths : list string;
  _loaded_files : gset string;
  _loaded_all : bool;
  _collection : gmap string VALUE;
  objects : gmap nat fact_object;
  environ : gmap string string;
  log : list (log_level * string);
  vm : VM
}.

Definition set_facts (x : gmap string nat) (st : state) : state :=
  mk_state x (_search_paths st) (_additional_search_paths st) (_external_search_paths st)
    (_loaded_files st) (_loaded_all st) (_collection st) (objects st) (environ st) (log st) (vm st).
Definition set_search_paths (x : list string) (st : state) : state :=
  mk_state (_facts st) x (_additional_search_paths st) (_external_search_paths st)
    (_loaded_files st) (_loaded_all st) (_collection st) (objects st) (environ st) (log st) (vm st).
Definition set_additional_search_paths (x : list string) (st : state) : state :=
  mk_state (_facts st) (_search_paths st) x (_external_search_paths st)
    (_loaded_files st) (_loaded_all st) (_collection st) (objects st) (environ st) (log st) (vm st).
Definition set_external_search_paths (x : list string) (st : state) : state :=
  mk_state (_facts st) (_search_paths st) (_additional_search_paths st) x
    (_loaded_files st) (_loaded_all st) (_collection st) (objects st) (environ st) (log st) (vm st).
Definition set_loaded_files (x : gset string) (st : state) : state :=
  mk_state (_facts st) (_search_paths st) (_additional_search_paths st) (_external_search_paths st)
    x (_loaded_all st) (_collection st) (objects st) (environ st) (log st) (vm st).
Definition set_loaded_all (x : bool) (st : state) : state :=
  mk_state (_facts st) (_search_paths st) (_additional_search_paths st) (_external_search_paths st)
    (_loaded_files st) x (_collection st) (objects st) (environ st) (log st) (vm st).
Definition set_collection (x : gmap string VALUE) (st : state) : state :=
  mk_state (_facts st) (_search_paths st) (_additional_search_paths st) (_external_search_paths st)
    (_loaded_files st) (_loaded_all st) x (objects st) (environ st) (log st) (vm st).
Definition set_objects (x : gmap nat fact_object) (st : state) : state :=
  mk_state (_facts st) (_search_paths st) (_additional_search_paths st) (_external_search_paths st)
    (_loaded_files st) (_loaded_all st) (_collection st) x (environ st) (log st) (vm st).
Definition set_log (x : list (log_level * string)) (st : state) : state :=
  mk_state (_facts st) (_search_paths st) (_additional_search_paths st) (_external_search_paths st)
    (_loaded_files st) (_loaded_all st) (_collection st) (objects st) (environ st) x (vm st).

(** [LOG_DEBUG(...)], [LOG_INFO(...)], ...: one more line in the sink. *)
Definition LOG (lvl : log_level) (msg : string) (st : state) : state :=
  set_log (log st ++ [(lvl, msg)]) st.

(** A computation of the bridge that may raise. *)
Definition M (A : Type) : Type := state -> outcome A * state.

Definition ret {A} (a : A) : M A := fun st => (Return a, st).

Definition bind {A B} (m : M A) (k : A -> M B) : M B :=
  fun st =>
    match m st with
    | (Return a, st') => k a st'
    | (Raised e, st') => (Raised e, st')
    end.

(** [ruby.rb_raise(cls, msg)]: control leaves the function at once. *)
Definition rb_raise {A} (cls msg : string) : M A :=
  fun st => (Raised (Exc cls msg), st).

(** A Ruby block given to an entry point: what evaluating it with
    [instance_eval] on a receiver does. *)
Definition block : Type := VALUE -> M VALUE.

End Bridge.

Arguments state : clear implicits.
Arguments M : clear implicits.
Arguments block : clear implicits.

(** Sequencing in [M]: [x <~ m ; k] runs [m], then [k] on its value; an
    exception raised by [m] skips [k]. *)
Notation "x <~ m ; k" := (bind m (fun x => k))
  (at level 20, m at level 100, k at level 200).
Notation "' pat <~ m ; k" := (bind m (fun x => match x with pat => k end))
  (at level 20, pat pattern, m at level 100, k at level 200).

(** ** The collaborators *)

(** What the bridge consumes and the source does not define: boost::filesystem
    and [directory::each_file], [facter::util::split], the interpreter (api.hpp),
    the fact class (fact.hpp), [facter::execution] and the native collection. *)
Record World (VM : Type) : Type := mk_world {
  (** [canonical(p, ec)]: the canonical path, or no path when [ec] is set. *)
  canonical : string -> option string;
  (** [ec.message()] for a path that does not canonicalize. *)
  canonical_error : string -> string;
  is_regular_file : string -> bool;
  is_directory : string -> bool;
  (** [directory::each_file(dir, _, "\\.rb$")]: the files visited, in order. *)
  each_file : string -> list string;
  split : string -> ascii -> list string;
  get_path_separator : ascii;
  (** [ruby.get_load_path()]: the entries of [$LOAD_PATH]. *)
  get_load_path : VM -> list string;
  (** [ruby.rb_load(path, 0)]: whatever running the file does, to the bridge
      too, through the entry points the file calls. *)
  rb_load : string -> M VM unit;
  (** [fact::define_resolution(name, options)] on the fact object [id]. *)
  define_resolution : nat -> VALUE -> VALUE -> M VM VALUE;
  (** [fact::value()] on the fact object [id]. *)
  fact_value_of : nat -> M VM VALUE;
  (** [fact::create(name)]: the identity of the new object. *)
  rb_alloc : state VM -> nat;
  (** [execution::execute(file, args, options)]: success and output. *)
  execute : string -> list string -> bool * string;
  expand_command : string -> string;
  add_default_facts : gmap string VALUE -> gmap string VALUE;
  add_external_facts : list string -> gmap string VALUE -> gmap string VALUE;
  (** [to_s] of hashes and fact objects. *)
  rb_to_s : VALUE -> string;
  exception_to_s : exception -> string;
  exception_backtrace : exception -> string;
  (** The default of the parameter of [clear_facts], declared in module.hpp. *)
  clear_collection_default : bool;
  (** What move assignment leaves in its source, a valid but unspecified
      [std::string]: a function of the old target and the moved value. *)
  moved_from : string -> string -> string
}.

Arguments canonical {VM} _ _.
Arguments canonical_error {VM} _ _.
Arguments is_regular_file {VM} _ _.
Arguments is_directory {VM} _ _.
Arguments each_file {VM} _ _.
Arguments split {VM} _ _ _.
Arguments get_path_separator {VM} _.
Arguments get_load_path {VM} _ _.
Arguments rb_load {VM} _ _.
Arguments define_resolution {VM} _ _ _ _.
Arguments fact_value_of {VM} _ _.
Arguments rb_alloc {VM} _ _.
Arguments execute {VM} _ _ _.
Arguments expand_command {VM} _ _.
Arguments add_default_facts {VM} _ _.
Arguments add_external_facts {VM} _ _ _.
Arguments rb_to_s {VM} _ _.
Arguments exception_to_s {VM} _ _.
Arguments exception_backtrace {VM} _ _.
Arguments clear_collection_default {VM} _.
Arguments moved_from {VM} _ _ _.

(** ** std::remove_if *)

(** [std::find_if]: the position of the first element satisfying [p], the
    length of the range when there is none. *)
Fixpoint find_if (p : string -> bool) (v : list string) : nat :=
  match v with
  | [] => 0
  | x :: v' => if p x then 0 else S (find_if p v')
  end.

(** The loop of [std::remove_if], [n] elements from position [i] on left to
    visit: [for (i = first; ++i != last;) if (!p( *i)) *first++ = move( *i)].
    [residue d x] is what the move assignment of [x] over [d] leaves behind. *)
Fixpoint remove_if_loop (residue : string -> string -> string) (p : string -> bool)
    (n first i : nat) (v : list string) : list string * nat :=
  match n with
  | 0 => (v, first)
  | S n' =>
      match v !! i, v !! first with
      | Some x, Some d =>
          if p x then remove_if_loop residue p n' first (S i) v
          else remove_if_loop residue p n' (S first) (S i)
                 (<[i := residue d x]> (<[first := x]> v))
      | _, _ => (v, first)
      end
  end.

(** [std::remove_if(v.begin(), v.end(), p)]: the range afterwards and the
    returned iterator, the new logical end.  The container keeps its size. *)
Definition remove_if (residue : string -> string -> string) (p : string -> bool)
    (v : list string) : list string * nat :=
  let first := find_if p v in
  if (first <? length v)%nat
  then remove_if_loop residue p (length v - S first) first (S first) v
  else (v, first).

Definition string_empty (s : string) : bool :=
  match s with EmptyString => true | _ => false end.

(** The elements [remove_if] is to keep, in order. *)
Definition kept (p : string -> bool) (v : list string) : list string :=
  List.filter (fun x => negb (p x)) v.

(** ** module.cc *)

Section Module.

Context {VM : Type} (W : World VM).

Local Abbreviation state := (state VM).
Local Abbreviation M := (M VM).

(** [ruby.to_string(v)]: the bytes of [v.to_s]. *)
Definition to_string (v : VALUE) : string :=
  match v with
  | Qnil => EmptyString
  | Qtrue => "true"
  | Qfalse => "false"
  | Fixnum z => pretty z
  | Symbol s => s
  | Str s => s
  | Object _ s => s
  | Hash _ | FactObj _ => rb_to_s W v
  end.

(** [ruby.protect(tag, callback)]: the exception, if any, stays in [tag]. *)
Definition protect {A} (m : M A) : state -> option exception * state :=
  fun st =>
    match m st with
    | (Return _, st') => (None, st')
    | (Raised e, st') => (Some e, st')
    end.

(** [ruby.rescue(callback, rescue)]. *)
Definition rescue {A} (m : M A) (handler : exception -> state -> state) : state -> state :=
  fun st =>
    match m st with
    | (Return _, st') => st'
    | (Raised e, st') => handler e st'
    end.

(** [module::normalize]. *)
Definition normalize (name : VALUE) : VALUE :=
  let name := if is_symbol name then rb_sym_to_s name else name in
  let name := if is_string name then rb_downcase name else name in
  name.

(** [module::facts]: populates the collection on first use. *)
Definition facts (st : state) : state :=
  if decide (_collection st = ∅)
  then set_collection
         (add_external_facts W (_external_search_paths st)
            (add_default_facts W (_collection st))) st
  else st.

(** [fact::create(name)]: a new, unresolved fact object. *)
Definition fact_create (name : VALUE) (st : state) : nat * state :=
  let id := rb_alloc W st in
  (id, set_objects (<[id := mk_fact name Qnil false]> (objects st)) st).

(** The exception [create_fact] raises. *)
Definition expected_name : exception :=
  Exc rb_eTypeError "expected a String or Symbol for fact name".

(** [module::create_fact]. *)
Definition create_fact (name : VALUE) : M VALUE :=
  fun st =>
    if negb (is_string name) && negb (is_symbol name)
    then (Raised expected_name, st)
    else
      let name := normalize name in
      let fact_name := to_string name in
      match _facts st !! fact_name with
      | Some id => (Return (FactObj id), st)
      | None =>
          let st := facts st in
          let '(id, st) := fact_create name st in
          (Return (FactObj id), set_facts (<[fact_name := id]> (_facts st)) st)
      end.

(** The rescue callback of [module::load_file]. *)
Definition load_error (path : string) (ex : exception) : state -> state :=
  LOG LOG_ERROR ("error while resolving custom facts in " +:+ path +:+ ": "
                 +:+ exception_to_s W ex +:+ "." +:+ newline +:+ "backtrace:"
                 +:+ newline +:+ exception_backtrace W ex).

(** The state in which [module::load_file] hands a new path to the
    interpreter: the path inserted, the line logged. *)
Definition about_to_load (path : string) (st : state) : state :=
  let st := set_loaded_files ({[path]} ∪ _loaded_files st) st in
  LOG LOG_INFO ("loading custom facts from " +:+ path +:+ ".") st.

(** [module::load_file]: [_loaded_files.insert(path).second] tells whether the
    path was new. *)
Definition load_file (path : string) (st : state) : state :=
  if decide (path ∈ _loaded_files st) then st
  else rescue (rb_load W path) (load_error path) (about_to_load path st).

(** The body of the loop of [module::load_facts] over one directory. *)
Definition load_directory (directory : string) (st : state) : state :=
  let st := LOG LOG_DEBUG ("searching for custom facts in " +:+ directory +:+ ".") st in
  foldl (fun st file => load_file file st) st (each_file W directory).

(** [module::load_facts].  The loop runs over [_search_paths] as it is on
    entry. *)
Definition load_facts (st : state) : state :=
  if _loaded_all st then st
  else
    let st := LOG LOG_DEBUG "loading all custom facts." st in
    let st := foldl (fun st directory => load_directory directory st) st (_search_paths st) in
    set_loaded_all true st.

(** The body of the loop of [module::load_fact] that looks for [filename] in
    one search directory. *)
Definition search_directory (filename directory : string) (st : state) : state :=
  let st := LOG LOG_DEBUG ("searching for " +:+ filename +:+ " in " +:+ directory +:+ ".") st in
  let full_path := path_append directory filename in
  if is_regular_file W full_path then load_file full_path st else st.

(** That loop; it runs over [_search_paths] as it is on entry. *)
Definition load_by_name (filename : string) (directories : list string) (st : state) : state :=
  foldl (fun st directory => search_directory filename directory st) st directories.

Definition not_found (fact_name : string) : string :=
  "custom fact " +:+ dquote +:+ fact_name +:+ dquote +:+ " was not found.".

Definition searching_for (fact_name : string) : string :=
  "searching for custom fact " +:+ dquote +:+ fact_name +:+ dquote +:+ ".".

(** The tail of [module::load_fact], from the check of the collection on. *)
Definition load_fact_fallback (name : VALUE) (fact_name : string) : M VALUE :=
  fun st =>
    let st := facts st in
    match _collection st !! fact_name with
    | Some _ => create_fact name st
    | None =>
        let st := load_facts st in
        match _facts st !! fact_name with
        | Some id => (Return (FactObj id), st)
        | None =>
            (Return Qnil, LOG LOG_DEBUG (not_found fact_name) st)
        end
    end.

(** [module::load_fact]. *)
Definition load_fact (name : VALUE) : M VALUE :=
  fun st =>
    let name := normalize name in
    let fact_name := to_string name in
    match _facts st !! fact_name with
    | Some id => (Return (FactObj id), st)
    | None =>
        if negb (_loaded_all st) then
          let filename := fact_name +:+ ".rb" in
          let st := LOG LOG_DEBUG (searching_for fact_name) st in
          let st := load_by_name filename (_search_paths st) st in
          match _facts st !! fact_name with
          | Some id => (Return (FactObj id), st)
          | None => load_fact_fallback name fact_name st
          end
        else load_fact_fallback name fact_name st
    end.

(** [module::fact_value]. *)
Definition fact_value (name : VALUE) : M VALUE :=
  fact_self <~ load_fact name ;
  match fact_self with
  | FactObj id => fact_value_of W id
  | _ => ret Qnil
  end.

(** [module::ruby_value] and [module::ruby_fact] (also bound to [[]]). *)
Definition ruby_value (name : VALUE) : M VALUE := fact_value name.
Definition ruby_fact (name : VALUE) : M VALUE := load_fact name.

(** [module::clear_facts]. *)
Definition clear_facts (clear_collection : bool) (st : state) : state :=
  let st := set_facts ∅ st in
  if clear_collection then set_collection ∅ st else st.

(** The first loop of [module::initialize_search_paths]: the [facter]
    subdirectories of the load path. *)
Fixpoint load_path_directories (load_path : list string) : list string :=
  match load_path with
  | [] => []
  | directory :: rest =>
      match canonical W directory with
      | None => load_path_directories rest
      | Some dir =>
          if is_regular_file W (path_append dir "facter.rb")
          then load_path_directories rest
          else
            let dir := path_append dir "facter" in
            if is_directory W dir
            then dir :: load_path_directories rest
            else load_path_directories rest
      end
  end.

(** The paths gathered before the canonical transform: load path, FACTERLIB,
    then the given paths. *)
Definition candidate_paths (paths : list string) (st : state) : list string :=
  load_path_directories (get_load_path W (vm st))
  ++ match environ st !! "FACTERLIB" with
     | Some variable => split W variable (get_path_separator W)
     | None => []
     end
  ++ paths.

(** The lambda given to [transform]: the canonical name, or the empty string. *)
Definition canonical_or_empty (directory : string) : string :=
  match canonical W directory with
  | Some dir => dir
  | None => EmptyString
  end.

Definition log_not_searched (directory : string) (st : state) : state :=
  match canonical W directory with
  | Some _ => st
  | None =>
      LOG LOG_DEBUG ("path " +:+ dquote +:+ directory +:+ dquote
                     +:+ " will not be searched for custom facts: "
                     +:+ canonical_error W directory +:+ ".") st
  end.

(** [module::initialize_search_paths].  The value of [remove_if] is dropped by
    the source, and no [erase] follows. *)
Definition initialize_search_paths (paths : list string) (st : state) : state :=
  let st := set_search_paths [] st in
  let st := set_additional_search_paths [] st in
  let st := set_search_paths (candidate_paths paths st) st in
  let before := _search_paths st in
  let st := set_search_paths (map canonical_or_empty before) st in
  let st := foldl (fun st directory => log_not_searched directory st) st before in
  set_search_paths (fst (remove_if (moved_from W) string_empty (_search_paths st))) st.

(** [module::ruby_reset]. *)
Definition ruby_reset : M VALUE :=
  fun st =>
    let st := clear_facts (clear_collection_default W) st in
    let st := initialize_search_paths [] st in
    let st := set_external_search_paths [] st in
    let st := set_loaded_all false st in
    let st := set_loaded_files ∅ st in
    (Return Qnil, st).

(** [module::ruby_loadfacts]. *)
Definition ruby_loadfacts : M VALUE :=
  fun st => (Return Qnil, load_facts st).

(** The body of the loop of [module::ruby_search] for one argument. *)
Definition search_one (arg : VALUE) (st : state) : state :=
  if negb (is_string arg) then st
  else
    let st := set_additional_search_paths
                (_additional_search_paths st ++ [to_string arg]) st in
    match canonical W (to_string arg) with
    | None => st
    | Some directory => set_search_paths (_search_paths st ++ [directory]) st
    end.

(** [module::ruby_search]. *)
Definition ruby_search (argv : list VALUE) : M VALUE :=
  fun st => (Return Qnil, foldl (fun st arg => search_one arg st) st argv).

(** [module::ruby_search_path]. *)
Definition ruby_search_path : M (list VALUE) :=
  fun st => (Return (map rb_str_new_cstr (_additional_search_paths st)), st).

Definition wrong_number_of_arguments (argc : nat) : string :=
  "wrong number of arguments (" +:+ pretty argc +:+ " for 2)".

(** [rb_funcall(options, rb_intern("delete"), 1, :name)]: the resolution name
    and the options left.  Only hashes and nil reach the resolution code; the
    call on anything else is answered with [NoMethodError]. *)
Definition delete_name (options : VALUE) : M (VALUE * VALUE) :=
  match options with
  | Hash kvs => ret (hash_lookup_sym kvs "name", Hash (hash_delete_sym kvs "name"))
  | _ => rb_raise rb_eNoMethodError "undefined method `delete'"
  end.

(** The resolution name read from the options hash, if present, and the
    options passed on. *)
Definition resolution_name (options : VALUE) : M (VALUE * VALUE) :=
  if is_nil options then ret (Qnil, options) else delete_name options.

(** [f->value(v)] through the pointer taken before the protected call. *)
Definition fact_set_value (id : nat) (v : VALUE) (st : state) : state :=
  set_objects (alter (fact_force_value v) id (objects st)) st.

(** The callback [ruby_add] runs under [protect]: define the resolution, then
    evaluate the block, if one was given, on it. *)
Definition define_and_evaluate (id : nat) (name options : VALUE)
    (blk : option (block VM)) : M VALUE :=
  resolution_self <~ define_resolution W id name options ;
  match blk with
  | Some b => _ <~ b resolution_self ; ret Qnil
  | None => ret Qnil
  end.

(** [module::ruby_add]; [blk] is the block of the call, if any. *)
Definition ruby_add (argv : list VALUE) (blk : option (block VM)) : M VALUE :=
  match argv with
  | [] | _ :: _ :: _ :: _ =>
      rb_raise rb_eArgError (wrong_number_of_arguments (length argv))
  | argv0 :: rest =>
      self <~ create_fact argv0 ;
      match self with
      | FactObj f =>
          let options := match rest with [o] => o | _ => Qnil end in
          '(name, options) <~ resolution_name options ;
          fun st =>
            match protect (define_and_evaluate f name options blk) st with
            | (Some tag, st) => (Raised tag, fact_set_value f Qnil st)
            | (None, st) => (Return (FactObj f), st)
            end
      | _ => ret self
      end
  end.

(** [module::ruby_define_fact]. *)
Definition ruby_define_fact (argv : list VALUE) (blk : option (block VM)) : M VALUE :=
  match argv with
  | [] | _ :: _ :: _ :: _ =>
      rb_raise rb_eArgError (wrong_number_of_arguments (length argv))
  | argv0 :: _ =>
      self <~ create_fact argv0 ;
      match blk with
      | Some b => _ <~ b self ; ret self
      | None => ret self
      end
  end.

(** The exception [execute_command] raises; the message is formatted with
    [%s] from [command.c_str()]. *)
Definition execution_failure (command : string) : exception :=
  Exc ExecutionFailure
    ("execution of command " +:+ dquote +:+ c_str command +:+ dquote +:+ " failed").

(** [module::execute_command]. *)
Definition execute_command (command : string) (failure_default : VALUE) (raise : bool)
    : M VALUE :=
  let result := execute W "sh" ["-c"; expand_command W command] in
  if fst result then ret (rb_str_new_cstr (snd result))
  else if raise
       then fun st => (Raised (execution_failure command), st)
       else ret failure_default.

(** [module::ruby_exec]. *)
Definition ruby_exec (command : VALUE) : M VALUE :=
  execute_command (to_string command) Qnil false.

(** [rb_hash_lookup(argv[1], :on_fail)].  The source hands [argv[1]] to
    [rb_hash_lookup] unchecked: only a hash is a defined input, and nothing is
    stated below about the answer given here for anything else. *)
Definition on_fail_option (opts : VALUE) : VALUE :=
  match opts with
  | Hash kvs => hash_lookup_sym kvs "on_fail"
  | _ => Qnil
  end.

(** [module::ruby_execute]. *)
Definition ruby_execute (argv : list VALUE) : M VALUE :=
  match argv with
  | [] | _ :: _ :: _ :: _ =>
      rb_raise rb_eArgError (wrong_number_of_arguments (length argv))
  | [argv0] => execute_command (to_string argv0) Qnil true
  | [argv0; argv1] =>
      let option := on_fail_option argv1 in
      if is_symbol option && String.eqb (to_string option) "raise"
      then execute_command (to_string argv0) Qnil true
      else execute_command (to_string argv0) option false
  end.

End Module.

(** ** module.cc, the other entry points *)

(** The two message sets of [module], kept beside [state]: only [debugonce]
    and [warnonce] read or write them, and [reset] leaves them alone. *)
Record messages : Type := mk_messages {
  _debug_messages : gset string;
  _warning_messages : gset string
}.

Section Entries.

Context {VM : Type} (W : World VM).

(** [module::ruby_debug] and [module::ruby_warn]. *)
Definition ruby_debug (message : VALUE) : M VM VALUE :=
  fun st => (Return Qnil, LOG LOG_DEBUG (to_string W message) st).

Definition ruby_warn (message : VALUE) : M VM VALUE :=
  fun st => (Return Qnil, LOG LOG_WARNING (to_string W message) st).

(** [module::ruby_debugonce]: [_debug_messages.insert(msg).second] tells
    whether the message was new. *)
Definition ruby_debugonce (message : VALUE) (ms : messages) (st : state VM)
    : outcome VALUE * (messages * state VM) :=
  let msg := to_string W message in
  if decide (msg ∈ _debug_messages ms) then (Return Qnil, (ms, st))
  else (Return Qnil,
        (mk_messages ({[msg]} ∪ _debug_messages ms) (_warning_messages ms),
         LOG LOG_DEBUG msg st)).

(** [module::ruby_warnonce]. *)
Definition ruby_warnonce (message : VALUE) (ms : messages) (st : state VM)
    : outcome VALUE * (messages * state VM) :=
  let msg := to_string W message in
  if decide (msg ∈ _warning_messages ms) then (Return Qnil, (ms, st))
  else (Return Qnil,
        (mk_messages (_debug_messages ms) ({[msg]} ∪ _warning_messages ms),
         LOG LOG_WARNING msg st)).

(** The callback [module::ruby_search_external] gives to [array_for_each],
    for one element. *)
Definition search_external_one (element : VALUE) (st : state VM) : state VM :=
  if negb (is_string element) then st
  else set_external_search_paths (_external_search_paths st ++ [to_string W element]) st.

(** [module::ruby_search_external]; [elements] are the entries of the array
    [paths], in order. *)
Definition ruby_search_external (elements : list VALUE) : M VM VALUE :=
  fun st => (Return Qnil, foldl (fun st element => search_external_one element st) st elements).

(** [module::ruby_search_external_path]. *)
Definition ruby_search_external_path : M VM (list VALUE) :=
  fun st => (Return (map rb_str_new_cstr (_external_search_paths st)), st).

End Entries.

(** No script empties or shrinks the loaded-file set: none calls [reset] or
    [clear] while it is loaded. *)
Definition scripts_keep_loaded_files {VM : Type} (W : World VM) : Prop :=
  forall (path : string) (st : state VM),
    _loaded_files st ⊆ _loaded_files (snd (rb_load W path st)).

(** ** Sessions *)

(** A call into the bridge: [load_file] itself and every entry point modelled
    above except [reset]. *)
Inductive call (VM : Type) : Type :=
  | CallLoadFile (path : string)
  | CallFact (name : VALUE)
  | CallValue (name : VALUE)
  | CallLoadfacts
  | CallSearch (argv : list VALUE)
  | CallSearchExternal (elements : list VALUE)
  | CallAdd (argv : list VALUE) (blk : option (block VM))
  | CallDefineFact (argv : list VALUE) (blk : option (block VM))
  | CallExecute (argv : list VALUE)
  | CallExec (command : VALUE)
  | CallDebug (message : VALUE)
  | CallWarn (message : VALUE).

Arguments CallLoadFile {VM} path.
Arguments CallFact {VM} name.
Arguments CallValue {VM} name.
Arguments CallLoadfacts {VM}.
Arguments CallSearch {VM} argv.
Arguments CallSearchExternal {VM} elements.
Arguments CallAdd {VM} argv blk.
Arguments CallDefineFact {VM} argv blk.
Arguments CallExecute {VM} argv.
Arguments CallExec {VM} command.
Arguments CallDebug {VM} message.
Arguments CallWarn {VM} message.

(** The state a call leaves, whether it returns or raises. *)
Definition run_call {VM : Type} (W : World VM) (c : call VM) (st : state VM) : state VM :=
  match c with
  | CallLoadFile path => load_file W path st
  | CallFact name => snd (ruby_fact W name st)
  | CallValue name => snd (ruby_value W name st)
  | CallLoadfacts => snd (ruby_loadfacts W st)
  | CallSearch argv => snd (ruby_search W argv st)
  | CallSearchExternal elements => snd (ruby_search_external W elements st)
  | CallAdd argv blk => snd (ruby_add W argv blk st)
  | CallDefineFact argv blk => snd (ruby_define_fact W argv blk st)
  | CallExecute argv => snd (ruby_execute W argv st)
  | CallExec command => snd (ruby_exec W command st)
  | CallDebug message => snd (ruby_debug W message st)
  | CallWarn message => snd (ruby_warn W message st)
  end.

(** A stretch of a session without [reset]: the calls one after the other. *)
Definition session {VM : Type} (W : World VM) (calls : list (call VM)) (st : state VM)
    : state VM :=
  foldl (fun st c => run_call W c st) st calls.

(** A computation that takes nothing out of the loaded-file set: Ruby code
    that does not call [reset] or [clear]. *)
Definition keeps_loaded_files {VM A : Type} (m : M VM A) : Prop :=
  forall st : state VM, _loaded_files st ⊆ _loaded_files (snd (m st)).

(** No script, resolution or fact value calls [reset] or [clear]. *)
Definition interpreter_keeps_loaded_files {VM : Type} (W : World VM) : Prop :=
  scripts_keep_loaded_files W
  /\ (forall id name options, keeps_loaded_files (define_resolution W id name options))
  /\ (forall id, keeps_loaded_files (fact_value_of W id)).

(** Nor does the block given to the call. *)
Definition call_keeps_loaded_files {VM : Type} (c : call VM) : Prop :=
  match c with
  | CallAdd _ (Some b) | CallDefineFact _ (Some b) =>
      forall self, keeps_loaded_files (b self)
  | _ => True
  end.

(** How often a line occurs in the log. *)
Definition occurrences (line : log_level * string) (l : list (log_level * string)) : nat :=
  length (List.filter
            (fun entry =>
               match fst entry, fst line with
               | LOG_DEBUG, LOG_DEBUG | LOG_INFO, LOG_INFO
               | LOG_WARNING, LOG_WARNING | LOG_ERROR, LOG_ERROR =>
                   String.eqb (snd entry) (snd line)
               | _, _ => false
               end) l).

(** ** scoped_env.cc *)

Module ScopedEnv.

(** Modelled from the spec: the environment collaborator of environment.hpp,
    [get(name) -> optional string], [set(name, value)] and [clear(name)], over
    the process environment as a finite map. *)
Definition environment_get (var : string) (env : gmap string string) : option string :=
  env !! var.
Definition environment_set (var val : string) (env : gmap string string) : gmap string string :=
  <[var := val]> env.
Definition environment_clear (var : string) (env : gmap string string) : gmap string string :=
  delete var env.

(** The resource held by the object: the variable and its old value, if set. *)
Definition resource : Type := string * option string.

(** [scoped_env::scoped_env(var, val)]: the resource kept and the environment
    afterwards. *)
Definition scoped_env (var val : string) (env : gmap string string)
    : resource * gmap string string :=
  let was_set := environment_get var env in
  let _resource := (var, was_set) in
  (_resource, environment_set var val env).

(** [scoped_env::restore], the deleter run when the scope ends. *)
Definition restore (old : resource) (env : gmap string string) : gmap string string :=
  match snd old with
  | Some oldval => environment_set (fst old) oldval env
  | None => environment_clear (fst old) env
  end.

End ScopedEnv.

(** ** A concrete world *)

(** A small file system, interpreter and native collection on which the
    functions above run: the examples below are evaluated on it. *)
Module Sample.

Definition mem (x : string) (l : list string) : bool :=
  existsb (String.eqb x) l.

(** Two custom fact directories [/d1] and [/d3], both holding [os.rb], a load
    path entry [/lib] with a [facter] subdirectory, and a link [/link] to
    [/d1]. *)
Definition directories : list string := ["/lib"; "/lib/facter"; "/d1"; "/d3"].
Definition files : list string :=
  ["/d1/os.rb"; "/d3/os.rb"; "/d1/memory.rb"; "/lib/facter/uptime.rb"].

Definition canon (p : string) : option string :=
  if String.eqb p "/link" then Some "/d1"
  else if mem p directories then Some p
  else None.

Definition files_of (directory : string) : list string :=
  List.filter (fun f => String.prefix (directory +:+ "/") f) files.

Fixpoint split_at (sep : ascii) (s acc : string) : list string :=
  match s with
  | EmptyString => [acc]
  | String c s' =>
      if Ascii.eqb c sep then acc :: split_at sep s' EmptyString
      else split_at sep s' (acc +:+ String c EmptyString)
  end.

(** The default facts of the native collection. *)
Definition default_facts (c : gmap string VALUE) : gmap string VALUE :=
  <["kernel" := Str "Linux"]> c.

(** What a script that defines the fact [name] leaves in the bridge, as
    [create_fact] does it: the collection populated if it was empty, a new
    fact object, the registry entry. *)
Definition defines (name : string) (st : state unit) : state unit :=
  match _facts st !! name with
  | Some _ => st
  | None =>
      let st := if decide (_collection st = ∅)
                then set_collection (default_facts (_collection st)) st
                else st in
      let id := size (objects st) in
      set_facts (<[name := id]> (_facts st))
        (set_objects (<[id := mk_fact (Str name) Qnil false]> (objects st)) st)
  end.

(** Every file executed warns once (a visible side effect); the two [os.rb]
    then define the fact [os], and [/d1/memory.rb] raises. *)
Definition script (path : string) : M unit unit :=
  fun st =>
    let st := LOG LOG_WARNING ("side effect of " +:+ path) st in
    if String.eqb path "/d1/memory.rb"
    then (Raised (Exc "RuntimeError" "boom"), st)
    else if mem path ["/d1/os.rb"; "/d3/os.rb"]
    then (Return tt, defines "os" st)
    else (Return tt, st).

(** Defining a resolution named [bad] fails. *)
Definition resolution (id : nat) (name options : VALUE) : M unit VALUE :=
  match name with
  | Str "bad" => rb_raise rb_eArgError "bad resolution"
  | _ => ret (Object "Facter::Util::Resolution" "resolution")
  end.

Definition cached_value (id : nat) : M unit VALUE :=
  fun st =>
    match objects st !! id with
    | Some f => (Return (fact_value_cached f), st)
    | None => (Return Qnil, st)
    end.

Definition run (file : string) (args : list string) : bool * string :=
  match args with
  | ["-c"; "echo hi"] => (true, "hi")
  | _ => (false, EmptyString)
  end.

Definition W : World unit := {|
  canonical := canon;
  canonical_error := fun _ => "No such file or directory";
  is_regular_file := fun p => mem p files;
  is_directory := fun p => mem p directories;
  each_file := files_of;
  split := fun s sep => split_at sep s EmptyString;
  get_path_separator := ":"%char;
  get_load_path := fun _ => ["/lib"; "/missing"];
  rb_load := script;
  define_resolution := resolution;
  fact_value_of := cached_value;
  rb_alloc := fun st => size (objects st);
  execute := run;
  expand_command := fun c => c;
  add_default_facts := default_facts;
  add_external_facts := fun _ c => c;
  rb_to_s := fun _ => "#<Object>";
  exception_to_s := fun e => match e with Exc _ msg => msg end;
  exception_backtrace := fun _ => EmptyString;
  clear_collection_default := true;
  moved_from := fun _ _ => EmptyString
|}.

(** The members of a bridge before [initialize_search_paths] has run. *)
Definition blank : state unit := {|
  _facts := ∅;
  _search_paths := [];
  _additional_search_paths := [];
  _external_search_paths := [];
  _loaded_files := ∅;
  _loaded_all := false;
  _collection := ∅;
  objects := ∅;
  environ := ∅;
  log := [];
  vm := tt
|}.

(** A bridge constructed with the search paths [/d1] and [/d3]. *)
Definition st0 : state unit := initialize_search_paths W ["/d1"; "/d3"] blank.

(** A block that fails, and one that resolves its receiver's fact to 4096. *)
Definition failing_block : block unit :=
  fun _ => rb_raise "RuntimeError" "block failed".

Definition st_added : state unit := snd (create_fact W (Symbol "uptime") st0).

(** The same bridge after a full discovery pass. *)
Definition st_discovered : state unit := load_facts W st0.

End Sample.

(** * Properties *)

(** ** Scoped environment override *)

(** C9: acquisition records the prior state of the variable and sets it to the
    new value; release sets it back to the old value when there was one and
    clears it otherwise; acquisition followed by release gives back the
    environment it started from. *)
Theorem scoped_env_round_trip (var val : string) (env : gmap string string) :
  let '(old, env1) := ScopedEnv.scoped_env var val env in
  old = (var, env !! var)
  /\ env1 !! var = Some val
  /\ (forall other, other <> var -> env1 !! other = env !! other)
  /\ ScopedEnv.restore old env1 !! var = env !! var
  /\ ScopedEnv.restore old env1 = env.
Proof.
  unfold ScopedEnv.scoped_env, ScopedEnv.restore, ScopedEnv.environment_get,
    ScopedEnv.environment_set, ScopedEnv.environment_clear; simpl.
  split; [reflexivity|]. split; [apply lookup_insert_eq|].
  split; [intros other Hne; apply lookup_insert_ne; congruence|].
  assert (Hround : match env !! var with
                   | Some oldval => <[var := oldval]> (<[var := val]> env)
                   | None => delete var (<[var := val]> env)
                   end = env).
  { destruct (env !! var) as [oldval|] eqn:Hold.
    - rewrite insert_insert_eq. by apply insert_id.
    - rewrite delete_insert_eq. by apply delete_id. }
  split; [by rewrite Hround | exact Hround].
Qed.

(** A variable that was set gets its old value back, one that was not is
    cleared. *)
Example scoped_env_examples :
  let set : gmap string string := {[ "FACTERLIB" := "/a" ]} in
  let '(old1, env1) := ScopedEnv.scoped_env "FACTERLIB" "/b" set in
  let '(old2, env2) := ScopedEnv.scoped_env "FACTERLIB" "/b" (∅ : gmap string string) in
  old1 = ("FACTERLIB", Some "/a")
  /\ env1 !! "FACTERLIB" = Some "/b"
  /\ ScopedEnv.restore old1 env1 !! "FACTERLIB" = Some "/a"
  /\ old2 = ("FACTERLIB", None)
  /\ env2 !! "FACTERLIB" = Some "/b"
  /\ ScopedEnv.restore old2 env2 !! "FACTERLIB" = None.
Proof. vm_compute. auto 7. Qed.

(** ** Search paths added at run time *)

Section Search.

Context {VM : Type} (W : World VM).

Lemma search_one_not_string (arg : VALUE) (st : state VM) :
  is_string arg = false -> search_one W arg st = st.
Proof. intros H. unfold search_one. by rewrite H. Qed.

Lemma search_one_additional (arg : VALUE) (st : state VM) :
  _additional_search_paths (search_one W arg st)
  = _additional_search_paths st ++ (if is_string arg then [to_string W arg] else []).
Proof.
  unfold search_one. destruct (is_string arg); simpl.
  - by destruct (canonical W (to_string W arg)).
  - by rewrite app_nil_r.
Qed.

Lemma search_one_search_paths (arg : VALUE) (st : state VM) :
  _search_paths (search_one W arg st)
  = _search_paths st
    ++ (if is_string arg then option_list (canonical W (to_string W arg)) else []).
Proof.
  unfold search_one. destruct (is_string arg); simpl.
  - destruct (canonical W (to_string W arg)); simpl; by rewrite ?app_nil_r.
  - by rewrite app_nil_r.
Qed.

Lemma search_fold_filter (argv : list VALUE) (st : state VM) :
  foldl (fun st arg => search_one W arg st) st argv
  = foldl (fun st arg => search_one W arg st) st (List.filter is_string argv).
Proof.
  revert st. induction argv as [|arg argv IH]; intros st; [reflexivity|].
  simpl. destruct (is_string arg) eqn:Harg; simpl.
  - apply IH.
  - rewrite search_one_not_string by done. apply IH.
Qed.

Lemma search_fold_additional (argv : list VALUE) (st : state VM) :
  _additional_search_paths (foldl (fun st arg => search_one W arg st) st argv)
  = _additional_search_paths st ++ map (to_string W) (List.filter is_string argv).
Proof.
  revert st. induction argv as [|arg argv IH]; intros st; simpl.
  - by rewrite app_nil_r.
  - rewrite IH, search_one_additional.
    destruct (is_string arg); simpl; by rewrite <- ?app_assoc.
Qed.

Lemma search_fold_search_paths (argv : list VALUE) (st : state VM) :
  _search_paths (foldl (fun st arg => search_one W arg st) st argv)
  = _search_paths st
    ++ omap (fun arg => canonical W (to_string W arg)) (List.filter is_string argv).
Proof.
  revert st. induction argv as [|arg argv IH]; intros st; simpl.
  - by rewrite app_nil_r.
  - rewrite IH, search_one_search_paths.
    destruct (is_string arg); simpl.
    + destruct (canonical W (to_string W arg)); simpl; by rewrite <- ?app_assoc.
    + by rewrite <- app_assoc.
Qed.

End Search.

(** C10: [search] skips every argument that is not a string: the call raises
    nothing, behaves as the call on the string arguments alone, and appends to
    AdditionalSearchPaths and to SearchPathSet, in order, what the string
    arguments contribute and nothing else. *)
Theorem ruby_search_skips_non_strings {VM : Type} (W : World VM)
    (argv : list VALUE) (st : state VM) :
  fst (ruby_search W argv st) = Return Qnil
  /\ ruby_search W argv st = ruby_search W (List.filter is_string argv) st
  /\ _additional_search_paths (snd (ruby_search W argv st))
     = _additional_search_paths st ++ map (to_string W) (List.filter is_string argv)
  /\ _search_paths (snd (ruby_search W argv st))
     = _search_paths st
       ++ omap (fun arg => canonical W (to_string W arg)) (List.filter is_string argv).
Proof.
  unfold ruby_search; simpl. split; [reflexivity|].
  split; [by rewrite search_fold_filter|].
  split; [apply search_fold_additional | apply search_fold_search_paths].
Qed.

(** A number and a symbol among the arguments are passed over; a string that
    does not canonicalize is recorded in AdditionalSearchPaths only. *)
Example ruby_search_example :
  let '(r, st) := ruby_search Sample.W
                    [Str "/link"; Fixnum 3; Str "/nowhere"; Symbol "x"; Str "/d3"]
                    Sample.st0 in
  r = Return Qnil
  /\ _additional_search_paths st = ["/link"; "/nowhere"; "/d3"]
  /\ _search_paths st = ["/lib/facter"; "/d1"; "/d3"; "/d1"; "/d3"].
Proof. vm_compute. auto. Qed.

(** ** Command execution *)

Section Execution.

Context {VM : Type} (W : World VM).

Lemma raise_option_iff (option : VALUE) :
  is_symbol option && String.eqb (to_string W option) "raise" = true
  <-> option = Symbol "raise".
Proof.
  split.
  - destruct option; simpl; try discriminate.
    intros H. apply String.eqb_eq in H. by subst.
  - intros ->. reflexivity.
Qed.

Lemma execute_command_failure (command : string) (failure_default : VALUE)
    (raise : bool) (st : state VM) :
  fst (execute W "sh" ["-c"; expand_command W command]) = false ->
  execute_command W command failure_default raise st
  = if raise then (Raised (execution_failure command), st)
    else (Return failure_default, st).
Proof.
  intros Hfail. unfold execute_command. rewrite Hfail. by destruct raise.
Qed.

End Execution.

(** C4: for a command whose execution fails, [execute(cmd, opts)] raises
    [ExecutionFailure] when the [on_fail] option is the symbol [:raise] and
    returns the value of the [on_fail] option itself when it is anything else;
    [execute(cmd)] raises. *)
Theorem ruby_execute_on_fail {VM : Type} (W : World VM)
    (command : VALUE) (kvs : list (VALUE * VALUE)) (st : state VM) :
  fst (execute W "sh" ["-c"; expand_command W (to_string W command)]) = false ->
  (hash_lookup_sym kvs "on_fail" = Symbol "raise" ->
     ruby_execute W [command; Hash kvs] st
     = (Raised (execution_failure (to_string W command)), st))
  /\ (hash_lookup_sym kvs "on_fail" <> Symbol "raise" ->
     ruby_execute W [command; Hash kvs] st
     = (Return (hash_lookup_sym kvs "on_fail"), st))
  /\ ruby_execute W [command] st
     = (Raised (execution_failure (to_string W command)), st).
Proof.
  intros Hfail. repeat split.
  - intros Hraise. unfold ruby_execute, on_fail_option. rewrite Hraise. simpl.
    by rewrite execute_command_failure.
  - intros Hother. unfold ruby_execute, on_fail_option.
    destruct (is_symbol (hash_lookup_sym kvs "on_fail")
              && String.eqb (to_string W (hash_lookup_sym kvs "on_fail")) "raise")
      eqn:Hopt.
    + apply raise_option_iff in Hopt. contradiction.
    + by rewrite execute_command_failure.
  - unfold ruby_execute. by rewrite execute_command_failure.
Qed.

Lemma ruby_execute_on_fail_witness :
  ruby_execute Sample.W [Str "false"; Hash [(Symbol "on_fail", Symbol "raise")]] Sample.st0
  = (Raised (execution_failure "false"), Sample.st0)
  /\ ruby_execute Sample.W [Str "false"; Hash [(Symbol "on_fail", Str "default")]] Sample.st0
  = (Return (Str "default"), Sample.st0)
  /\ ruby_execute Sample.W [Str "false"] Sample.st0
  = (Raised (execution_failure "false"), Sample.st0).
Proof.
  split; [|split].
  - apply (ruby_execute_on_fail Sample.W (Str "false")
             [(Symbol "on_fail", Symbol "raise")] Sample.st0); reflexivity.
  - apply (ruby_execute_on_fail Sample.W (Str "false")
             [(Symbol "on_fail", Str "default")] Sample.st0);
      [reflexivity | simpl; discriminate].
  - apply (ruby_execute_on_fail Sample.W (Str "false") [] Sample.st0); reflexivity.
Defined.

(** ** Fact names *)

Section Names.

Context {VM : Type} (W : World VM).

Lemma normalize_symbol (s : string) : normalize (Symbol s) = Str (downcase s).
Proof. reflexivity. Qed.

Lemma normalize_string (s : string) : normalize (Str s) = Str (downcase s).
Proof. reflexivity. Qed.

Lemma normalize_other (v : VALUE) :
  is_symbol v = false -> is_string v = false -> normalize v = v.
Proof. intros Hsym Hstr. unfold normalize. by rewrite Hsym, Hstr. Qed.

Lemma downcase_ascii_idempotent (c : ascii) :
  downcase_ascii (downcase_ascii c) = downcase_ascii c.
Proof.
  unfold downcase_ascii.
  destruct ((65 <=? nat_of_ascii c)%nat && (nat_of_ascii c <=? 90)%nat) eqn:Hupper.
  - apply andb_true_iff in Hupper as [Hlo Hhi].
    apply Nat.leb_le in Hlo. apply Nat.leb_le in Hhi.
    rewrite nat_ascii_embedding by lia.
    replace ((nat_of_ascii c + 32 <=? 90)%nat) with false
      by (symmetry; apply Nat.leb_gt; lia).
    by rewrite andb_false_r.
  - by rewrite Hupper.
Qed.

Lemma downcase_idempotent (s : string) : downcase (downcase s) = downcase s.
Proof.
  induction s as [|c s IH]; simpl; [reflexivity|].
  by rewrite downcase_ascii_idempotent, IH.
Qed.

Lemma normalize_idempotent (v : VALUE) : normalize (normalize v) = normalize v.
Proof.
  destruct v; try reflexivity; unfold normalize; simpl; by rewrite downcase_idempotent.
Qed.

(** The registry key of a name given as a symbol or as a string. *)
Lemma key_of_symbol (s : string) : to_string W (normalize (Symbol s)) = downcase s.
Proof. reflexivity. Qed.

Lemma key_of_string (s : string) : to_string W (normalize (Str s)) = downcase s.
Proof. reflexivity. Qed.

(** [create_fact] on a symbol or string leaves the handle it returns in the
    registry, under the lower-cased name. *)
Lemma create_fact_registers (name : VALUE) (st st' : state VM) (h : VALUE) :
  create_fact W name st = (Return h, st') ->
  exists id, h = FactObj id /\ _facts st' !! to_string W (normalize name) = Some id.
Proof.
  unfold create_fact.
  destruct (negb (is_string name) && negb (is_symbol name)); [discriminate|].
  destruct (_facts st !! to_string W (normalize name)) as [id|] eqn:Hfind.
  - intros [= <- <-]. eauto.
  - unfold fact_create. intros [= <- <-]. eexists; split; [reflexivity|].
    simpl. apply lookup_insert_eq.
Qed.

Lemma load_fact_cached (name : VALUE) (st : state VM) (id : nat) :
  _facts st !! to_string W (normalize name) = Some id ->
  load_fact W name st = (Return (FactObj id), st).
Proof. intros Hfind. unfold load_fact. by rewrite Hfind. Qed.

End Names.

(** ** Loading plugin files *)

Section Loading.

Context {VM : Type} (W : World VM).

Lemma load_file_loaded (path : string) (st : state VM) :
  path ∈ _loaded_files st -> load_file W path st = st.
Proof. intros Hin. unfold load_file. by rewrite decide_True. Qed.

Lemma load_file_fresh (path : string) (st : state VM) :
  path ∉ _loaded_files st ->
  load_file W path st
  = rescue (rb_load W path) (load_error W path) (about_to_load path st).
Proof. intros Hout. unfold load_file. by rewrite decide_False. Qed.

Lemma rescue_loaded_files {A} (m : M VM A) (path : string) (st : state VM) :
  _loaded_files (rescue m (load_error W path) st) = _loaded_files (snd (m st)).
Proof. unfold rescue. by destruct (m st) as [[a|e] st']. Qed.

Section KeepLoaded.

Hypothesis Hkeep : scripts_keep_loaded_files W.

Lemma load_file_keeps (path : string) (st : state VM) :
  _loaded_files st ⊆ _loaded_files (load_file W path st).
Proof.
  unfold load_file. case_decide; [done|].
  rewrite rescue_loaded_files. etrans; [|apply Hkeep]. simpl. set_solver.
Qed.

Lemma load_file_loads (path : string) (st : state VM) :
  path ∈ _loaded_files (load_file W path st).
Proof.
  unfold load_file. case_decide; [done|].
  rewrite rescue_loaded_files. apply Hkeep. simpl. set_solver.
Qed.

Lemma search_directory_keeps (filename directory : string) (st : state VM) :
  _loaded_files st ⊆ _loaded_files (search_directory W filename directory st).
Proof.
  unfold search_directory.
  destruct (is_regular_file W (path_append directory filename)); [|done].
  etrans; [|apply load_file_keeps]. done.
Qed.

Lemma load_by_name_keeps (filename : string) (directories : list string) (st : state VM) :
  _loaded_files st ⊆ _loaded_files (load_by_name W filename directories st).
Proof.
  revert st. induction directories as [|d ds IH]; intros st; [done|].
  simpl. etrans; [apply (search_directory_keeps filename d)|]. apply IH.
Qed.

Lemma load_by_name_loads (filename : string) (directories : list string) (st : state VM)
    (directory : string) :
  directory ∈ directories ->
  is_regular_file W (path_append directory filename) = true ->
  path_append directory filename ∈ _loaded_files (load_by_name W filename directories st).
Proof.
  intros Hin Hfile. revert st.
  induction directories as [|d ds IH]; intros st; [by apply elem_of_nil in Hin|].
  apply elem_of_cons in Hin as [->|Hin].
  - simpl. apply load_by_name_keeps.
    unfold search_directory. rewrite Hfile. apply load_file_loads.
  - simpl. by apply IH.
Qed.

Lemma load_directory_keeps (directory : string) (st : state VM) :
  _loaded_files st ⊆ _loaded_files (load_directory W directory st).
Proof.
  unfold load_directory.
  generalize (each_file W directory).
  assert (Hfold : forall files (s : state VM),
             _loaded_files s ⊆ _loaded_files (foldl (fun s file => load_file W file s) s files)).
  { induction files as [|f fs IH]; intros s; [done|].
    simpl. etrans; [apply (load_file_keeps f)|]. apply IH. }
  intros files. etrans; [|apply Hfold]. done.
Qed.

Lemma load_facts_keeps (st : state VM) :
  _loaded_files st ⊆ _loaded_files (load_facts W st).
Proof.
  unfold load_facts. destruct (_loaded_all st); [done|]. simpl.
  generalize (_search_paths st).
  assert (Hfold : forall dirs (s : state VM),
             _loaded_files s
             ⊆ _loaded_files (foldl (fun s d => load_directory W d s) s dirs)).
  { induction dirs as [|d ds IH]; intros s; [done|].
    simpl. etrans; [apply (load_directory_keeps d)|]. apply IH. }
  intros dirs. etrans; [|apply Hfold]. done.
Qed.

Lemma facts_loaded_files (st : state VM) :
  _loaded_files (facts W st) = _loaded_files st.
Proof. unfold facts. by case_decide. Qed.

Lemma create_fact_loaded_files (name : VALUE) (st : state VM) :
  _loaded_files (snd (create_fact W name st)) = _loaded_files st.
Proof.
  unfold create_fact.
  destruct (negb (is_string name) && negb (is_symbol name)); [done|].
  destruct (_facts st !! to_string W (normalize name)); [done|].
  simpl. apply facts_loaded_files.
Qed.

Lemma load_fact_fallback_keeps (name : VALUE) (fact_name : string) (st : state VM) :
  _loaded_files st ⊆ _loaded_files (snd (load_fact_fallback W name fact_name st)).
Proof.
  unfold load_fact_fallback.
  destruct (_collection (facts W st) !! fact_name).
  - by rewrite create_fact_loaded_files, facts_loaded_files.
  - destruct (_facts (load_facts W (facts W st)) !! fact_name); simpl;
      (etrans; [|apply load_facts_keeps]); by rewrite facts_loaded_files.
Qed.

End KeepLoaded.

End Loading.

Lemma example_scripts_keep_loaded_files : scripts_keep_loaded_files Sample.W.
Proof.
  intros path st. simpl. unfold Sample.script.
  destruct (String.eqb path "/d1/memory.rb"); [done|].
  destruct (Sample.mem path ["/d1/os.rb"; "/d3/os.rb"]); [|done].
  simpl. unfold Sample.defines. destruct (_facts _ !! "os"); [done|].
  by case_decide.
Qed.

(** C1: for a name that is not cached, before full discovery has run, the
    lookup runs the per-name pass over the whole of SearchPathSet and goes on
    from the state this leaves; the pass visits every directory, in order, on
    the state left by the directories before it, whether or not one of them
    matched; a visit executes the matching file unless the session has loaded
    it already; and when no script empties the loaded-file set, every matching
    file of every directory is in LoadedFileSet once the lookup is over. *)
Theorem load_fact_loads_every_match {VM : Type} (W : World VM)
    (name : VALUE) (st : state VM) :
  let fact_name := to_string W (normalize name) in
  let filename := fact_name +:+ ".rb" in
  _facts st !! fact_name = None ->
  _loaded_all st = false ->
  (let st1 := load_by_name W filename (_search_paths st)
                (LOG LOG_DEBUG (searching_for fact_name) st) in
   load_fact W name st
   = match _facts st1 !! fact_name with
     | Some id => (Return (FactObj id), st1)
     | None => load_fact_fallback W (normalize name) fact_name st1
     end)
  /\ (forall (before after : list string) (directory : string) (s : state VM),
        load_by_name W filename (before ++ directory :: after) s
        = load_by_name W filename after
            (search_directory W filename directory (load_by_name W filename before s)))
  /\ (forall (directory : string) (s : state VM),
        is_regular_file W (path_append directory filename) = true ->
        path_append directory filename ∉ _loaded_files s ->
        search_directory W filename directory s
        = rescue (rb_load W (path_append directory filename))
            (load_error W (path_append directory filename))
            (about_to_load (path_append directory filename)
               (LOG LOG_DEBUG ("searching for " +:+ filename +:+ " in "
                               +:+ directory +:+ ".") s)))
  /\ (scripts_keep_loaded_files W ->
      forall directory : string,
        directory ∈ _search_paths st ->
        is_regular_file W (path_append directory filename) = true ->
        path_append directory filename ∈ _loaded_files (snd (load_fact W name st))).
Proof.
  intros fact_name filename Hmiss Hflag.
  assert (Hlookup :
    let st1 := load_by_name W filename (_search_paths st)
                 (LOG LOG_DEBUG (searching_for fact_name) st) in
    load_fact W name st
    = match _facts st1 !! fact_name with
      | Some id => (Return (FactObj id), st1)
      | None => load_fact_fallback W (normalize name) fact_name st1
      end).
  { unfold load_fact. fold fact_name. rewrite Hmiss, Hflag. reflexivity. }
  split; [exact Hlookup|]. split; [|split].
  - intros before after directory s. unfold load_by_name.
    by rewrite foldl_app.
  - intros directory s Hfile Hnew. unfold search_directory. rewrite Hfile.
    by apply load_file_fresh.
  - intros Hkeep directory Hin Hfile. simpl in Hlookup. rewrite Hlookup.
    pose proof (load_by_name_loads W Hkeep filename (_search_paths st)
                  (LOG LOG_DEBUG (searching_for fact_name) st) directory Hin Hfile)
      as Hloaded.
    set (st1 := load_by_name W filename (_search_paths st)
                  (LOG LOG_DEBUG (searching_for fact_name) st)) in *.
    destruct (_facts st1 !! fact_name); [exact Hloaded|].
    by apply (load_fact_fallback_keeps W Hkeep).
Qed.

Lemma load_fact_loads_every_match_witness :
  "/d3/os.rb" ∈ _loaded_files (snd (load_fact Sample.W (Str "OS") Sample.st0)).
Proof.
  apply (proj2 (proj2 (proj2
           (load_fact_loads_every_match Sample.W (Str "OS") Sample.st0
              ltac:(reflexivity) ltac:(reflexivity))))
           example_scripts_keep_loaded_files "/d3").
  - vm_compute. set_solver.
  - reflexivity.
Defined.

(** Two directories hold [os.rb]: the first request for [os] executes both and
    returns the fact they define; the second one is answered from the cache and
    changes nothing. *)
Example load_fact_two_directories :
  let '(r, st1) := load_fact Sample.W (Symbol "os") Sample.st0 in
  r = Return (FactObj 0)
  /\ List.filter (fun entry => match fst entry with LOG_WARNING => true | _ => false end)
       (log st1)
     = [(LOG_WARNING, "side effect of /d1/os.rb"); (LOG_WARNING, "side effect of /d3/os.rb")]
  /\ load_fact Sample.W (Str "OS") st1 = (Return (FactObj 0), st1).
Proof. vm_compute. auto. Qed.

Section Sessions.

Context {VM : Type} (W : World VM).

Hypothesis Hkeep : interpreter_keeps_loaded_files W.

Lemma keeps_bind {A B} (m : M VM A) (k : A -> M VM B) :
  keeps_loaded_files m -> (forall a, keeps_loaded_files (k a)) ->
  keeps_loaded_files (bind m k).
Proof.
  intros Hm Hk st. unfold bind. specialize (Hm st).
  destruct (m st) as [[a|e] st1]; simpl in *; [|done].
  etrans; [exact Hm | apply Hk].
Qed.

Lemma keeps_ret {A} (a : A) : keeps_loaded_files (ret a : M VM A).
Proof. by intros st. Qed.

Lemma load_fact_keeps (name : VALUE) : keeps_loaded_files (load_fact W name).
Proof.
  destruct Hkeep as (Hscripts & _). intros st. unfold load_fact.
  destruct (_facts st !! to_string W (normalize name)); [done|].
  destruct (_loaded_all st); simpl.
  - by apply load_fact_fallback_keeps.
  - set (st1 := load_by_name W _ _ _).
    assert (Hpass : _loaded_files st ⊆ _loaded_files st1)
      by (unfold st1; etrans; [|by apply load_by_name_keeps]; done).
    destruct (_facts st1 !! to_string W (normalize name)); [exact Hpass|].
    etrans; [exact Hpass | by apply load_fact_fallback_keeps].
Qed.

Lemma fact_value_keeps (name : VALUE) : keeps_loaded_files (fact_value W name).
Proof.
  destruct Hkeep as (_ & _ & Hvalue).
  apply keeps_bind; [apply load_fact_keeps|].
  intros fact_self. destruct fact_self; try apply keeps_ret. apply Hvalue.
Qed.

Lemma create_fact_keeps (name : VALUE) : keeps_loaded_files (create_fact W name).
Proof. intros st. by rewrite create_fact_loaded_files. Qed.

Lemma resolution_name_keeps (options : VALUE) :
  keeps_loaded_files (resolution_name (VM := VM) options).
Proof. intros st. unfold resolution_name. by destruct options. Qed.

Lemma define_and_evaluate_keeps (id : nat) (name options : VALUE)
    (blk : option (block VM)) :
  call_keeps_loaded_files (CallAdd [] blk) ->
  keeps_loaded_files (define_and_evaluate W id name options blk).
Proof.
  destruct Hkeep as (_ & Hdefine & _). intros Hblk.
  apply keeps_bind; [apply Hdefine|]. intros resolution_self.
  destruct blk as [b|]; [|apply keeps_ret].
  apply keeps_bind; [apply Hblk | intros _; apply keeps_ret].
Qed.

Lemma ruby_add_keeps (argv : list VALUE) (blk : option (block VM)) :
  call_keeps_loaded_files (CallAdd argv blk) ->
  keeps_loaded_files (ruby_add W argv blk).
Proof.
  intros Hblk.
  assert (Hbody : forall argv0 options,
    keeps_loaded_files
      (bind (create_fact W argv0) (fun self =>
         match self with
         | FactObj f =>
             bind (resolution_name options)
               (fun x => match x with
                  | (name, options) => fun st =>
                      match protect (define_and_evaluate W f name options blk) st with
                      | (Some tag, st) => (Raised tag, fact_set_value f Qnil st)
                      | (None, st) => (Return (FactObj f), st)
                      end
                  end)
         | _ => ret self
         end))).
  { intros argv0 options. apply keeps_bind; [apply create_fact_keeps|].
    intros self. destruct self; try apply keeps_ret.
    apply keeps_bind; [apply resolution_name_keeps|].
    intros [name options'] st. unfold protect.
    pose proof (define_and_evaluate_keeps id name options' blk Hblk st) as Hdefine.
    by destruct (define_and_evaluate W id name options' blk st) as [[v|tag] st1]. }
  destruct argv as [|a0 [|a1 [|a2 rest]]]; [by intros st | | | by intros st]; apply Hbody.
Qed.

Lemma ruby_define_fact_keeps (argv : list VALUE) (blk : option (block VM)) :
  call_keeps_loaded_files (CallDefineFact argv blk) ->
  keeps_loaded_files (ruby_define_fact W argv blk).
Proof.
  intros Hblk.
  assert (Hbody : forall argv0,
    keeps_loaded_files
      (bind (create_fact W argv0) (fun self =>
         match blk with
         | Some b => bind (b self) (fun _ => ret self)
         | None => ret self
         end))).
  { intros argv0. apply keeps_bind; [apply create_fact_keeps|].
    intros self. destruct blk as [b|]; [|apply keeps_ret].
    apply keeps_bind; [apply Hblk | intros _; apply keeps_ret]. }
  destruct argv as [|a0 [|a1 [|a2 rest]]]; [by intros st | | | by intros st]; apply Hbody.
Qed.

Lemma execute_command_state (command : string) (failure_default : VALUE) (raise : bool)
    (st : state VM) :
  snd (execute_command W command failure_default raise st) = st.
Proof.
  unfold execute_command.
  destruct (fst (execute W "sh" ["-c"; expand_command W command])); [done|].
  by destruct raise.
Qed.

Lemma ruby_execute_state (argv : list VALUE) (st : state VM) :
  snd (ruby_execute W argv st) = st.
Proof.
  destruct argv as [|a0 [|a1 [|a2 rest]]]; try done; unfold ruby_execute.
  - apply execute_command_state.
  - destruct (is_symbol (on_fail_option a1)
              && String.eqb (to_string W (on_fail_option a1)) "raise");
      apply execute_command_state.
Qed.

Lemma search_fold_loaded_files (argv : list VALUE) (st : state VM) :
  _loaded_files (foldl (fun st arg => search_one W arg st) st argv) = _loaded_files st.
Proof.
  revert st. induction argv as [|arg argv IH]; intros st; [done|].
  simpl. rewrite IH. unfold search_one. destruct (is_string arg); simpl; [|done].
  by destruct (canonical W (to_string W arg)).
Qed.

Lemma search_external_fold_loaded_files (elements : list VALUE) (st : state VM) :
  _loaded_files (foldl (fun st e => search_external_one W e st) st elements)
  = _loaded_files st.
Proof.
  revert st. induction elements as [|e es IH]; intros st; [done|].
  simpl. rewrite IH. unfold search_external_one. by destruct (is_string e).
Qed.

Lemma run_call_keeps (c : call VM) (st : state VM) :
  call_keeps_loaded_files c ->
  _loaded_files st ⊆ _loaded_files (run_call W c st).
Proof.
  intros Hcall. destruct c; simpl run_call.
  - apply load_file_keeps, Hkeep.
  - apply load_fact_keeps.
  - apply fact_value_keeps.
  - apply load_facts_keeps, Hkeep.
  - unfold ruby_search. simpl. by rewrite search_fold_loaded_files.
  - unfold ruby_search_external. simpl. by rewrite search_external_fold_loaded_files.
  - by apply ruby_add_keeps.
  - by apply ruby_define_fact_keeps.
  - by rewrite ruby_execute_state.
  - unfold ruby_exec. by rewrite execute_command_state.
  - done.
  - done.
Qed.

Lemma session_keeps (calls : list (call VM)) (st : state VM) :
  Forall call_keeps_loaded_files calls ->
  _loaded_files st ⊆ _loaded_files (session W calls st).
Proof.
  intros Hcalls. revert st. induction Hcalls as [|c calls Hc _ IH]; intros st; [done|].
  unfold session in *. simpl. etrans; [by apply run_call_keeps | apply IH].
Qed.

End Sessions.


Lemma example_interpreter_keeps_loaded_files : interpreter_keeps_loaded_files Sample.W.
Proof.
  split; [exact example_scripts_keep_loaded_files|]. split.
  - intros id name options st. simpl. unfold Sample.resolution.
    repeat case_match; done.
  - intros id st. simpl. unfold Sample.cached_value. by destruct (objects st !! id).
Qed.


(** Between two resets a file runs once: loaded, then others, then again, its
    side effect is in the log a single time. *)
Example load_file_once_among_others :
  let calls : list (call unit) :=
    [CallLoadFile "/d1/os.rb"; CallLoadFile "/d3/os.rb"; CallLoadFile "/d1/os.rb";
     CallFact (Symbol "os"); CallLoadfacts; CallLoadFile "/d1/os.rb"] in
  occurrences (LOG_WARNING, "side effect of /d1/os.rb") (log (session Sample.W calls Sample.st0))
  = 1.
Proof. reflexivity. Qed.


(** ** Lookups after full discovery *)

Section Discovered.

Context {VM : Type} (W : World VM).

Lemma load_facts_sets_flag (st : state VM) : _loaded_all (load_facts W st) = true.
Proof. unfold load_facts. by destruct (_loaded_all st) eqn:Hflag. Qed.

Lemma load_facts_done (st : state VM) : _loaded_all st = true -> load_facts W st = st.
Proof. intros Hflag. unfold load_facts. by rewrite Hflag. Qed.

Lemma facts_members (st : state VM) :
  _facts (facts W st) = _facts st
  /\ _loaded_all (facts W st) = _loaded_all st
  /\ _search_paths (facts W st) = _search_paths st.
Proof. unfold facts. by case_decide. Qed.

Lemma create_fact_members (name : VALUE) (st : state VM) :
  _loaded_all (snd (create_fact W name st)) = _loaded_all st
  /\ _loaded_files (snd (create_fact W name st)) = _loaded_files st.
Proof.
  split; [|apply create_fact_loaded_files].
  unfold create_fact.
  destruct (negb (is_string name) && negb (is_symbol name)); [done|].
  destruct (_facts st !! to_string W (normalize name)); [done|].
  simpl. apply facts_members.
Qed.

End Discovered.

(** C8, as the code has it: a full discovery pass leaves the all-loaded flag
    set; from then on the lookup of an uncached name does no per-name scan and
    no further discovery scan (no file is loaded, the flag stays set), but it
    still consults the native collection, populating it if it is empty: a
    value found there is wrapped by [create_fact], and only a name absent from
    it too is answered with nil. *)
Theorem load_fact_after_full_discovery {VM : Type} (W : World VM)
    (name : VALUE) (st : state VM) :
  let fact_name := to_string W (normalize name) in
  _loaded_all st = true ->
  _facts st !! fact_name = None ->
  (forall s : state VM, _loaded_all (load_facts W s) = true)
  /\ load_facts W st = st
  /\ load_fact W name st
     = (let st1 := facts W st in
        match _collection st1 !! fact_name with
        | Some _ => create_fact W (normalize name) st1
        | None => (Return Qnil, LOG LOG_DEBUG (not_found fact_name) st1)
        end)
  /\ _loaded_files (snd (load_fact W name st)) = _loaded_files st
  /\ _loaded_all (snd (load_fact W name st)) = true.
Proof.
  intros fact_name Hflag Hmiss.
  destruct (facts_members W st) as (Hfacts & Hall & _).
  assert (Hlookup : load_fact W name st
     = (let st1 := facts W st in
        match _collection st1 !! fact_name with
        | Some _ => create_fact W (normalize name) st1
        | None => (Return Qnil, LOG LOG_DEBUG (not_found fact_name) st1)
        end)).
  { unfold load_fact. fold fact_name. rewrite Hmiss, Hflag. simpl.
    unfold load_fact_fallback.
    destruct (_collection (facts W st) !! fact_name); [done|].
    rewrite load_facts_done by congruence.
    by rewrite Hfacts, Hmiss. }
  split; [apply load_facts_sets_flag|]. split; [by apply load_facts_done|].
  split; [exact Hlookup|]. rewrite Hlookup. simpl.
  destruct (_collection (facts W st) !! fact_name).
  - destruct (create_fact_members W (normalize name) (facts W st)) as [-> ->].
    by rewrite facts_loaded_files, Hall.
  - simpl. by rewrite facts_loaded_files, Hall.
Qed.

Lemma load_fact_after_full_discovery_witness :
  load_fact Sample.W (Str "Kernel") Sample.st_discovered
  = (let st1 := facts Sample.W Sample.st_discovered in
     match _collection st1 !! "kernel" with
     | Some _ => create_fact Sample.W (Str "kernel") st1
     | None => (Return Qnil, LOG LOG_DEBUG (not_found "kernel") st1)
     end).
Proof.
  apply (load_fact_after_full_discovery Sample.W (Str "Kernel") Sample.st_discovered);
    reflexivity.
Defined.

(** C8 as stated fails: with the flag set, the lookup of an uncached name
    still checks the native collection and answers with a handle for the
    value found there. *)
Lemma load_fact_checks_collection_after_discovery :
  _loaded_all Sample.st_discovered = true
  /\ _facts Sample.st_discovered !! "kernel" = None
  /\ _collection Sample.st_discovered !! "kernel" = Some (Str "Linux")
  /\ fst (load_fact Sample.W (Str "kernel") Sample.st_discovered) = Return (FactObj 1)
  /\ _collection (snd (load_fact Sample.W (Str "kernel") Sample.st_discovered)) !! "kernel"
     = Some (Str "Linux").
Proof. vm_compute. auto 6. Qed.

(** ** Names that are neither symbols nor strings *)

Section OtherNames.

Context {VM : Type} (W : World VM).

Lemma create_fact_other (name : VALUE) (st : state VM) :
  is_symbol name = false -> is_string name = false ->
  create_fact W name st = (Raised expected_name, st).
Proof. intros Hsym Hstr. unfold create_fact. by rewrite Hsym, Hstr. Qed.

Lemma load_fact_fallback_other (name : VALUE) (st : state VM) :
  is_symbol name = false -> is_string name = false ->
  _facts st !! to_string W name = None ->
  match load_fact_fallback W name (to_string W name) st with
  | (Raised e, st') =>
      e = expected_name
      /\ is_Some (_collection st' !! to_string W name)
      /\ _facts st' !! to_string W name = None
  | (Return v, st') =>
      v = Qnil \/ exists id, v = FactObj id /\ _facts st' !! to_string W name = Some id
  end.
Proof.
  intros Hsym Hstr Hmiss. unfold load_fact_fallback.
  destruct (_collection (facts W st) !! to_string W name) as [value|] eqn:Hnative.
  - rewrite create_fact_other by done.
    destruct (facts_members W st) as (Hfacts & _ & _).
    rewrite Hfacts. split; [done|]. split; [by rewrite Hnative | done].
  - destruct (_facts (load_facts W (facts W st)) !! to_string W name) as [id|] eqn:Hfound.
    + right. eauto.
    + by left.
Qed.

End OtherNames.

(** C7, as the code has it: for a name that is neither a symbol nor a string,
    [fact], [[]] and [value] do not reject the argument.  The normalizer leaves
    it as it is and the lookup goes on with it, keyed by its string form: a
    handle cached under that key is returned; the lookup answers nil or a
    handle in every case but one, and the input-type failure is raised only
    where the lookup reaches [create_fact], which is when the key is not
    cached and the native collection holds a value under it. *)
Theorem load_fact_other_names {VM : Type} (W : World VM)
    (name : VALUE) (st : state VM) :
  is_symbol name = false ->
  is_string name = false ->
  normalize name = name
  /\ (forall id, _facts st !! to_string W name = Some id ->
        ruby_fact W name st = (Return (FactObj id), st))
  /\ (forall e st', ruby_fact W name st = (Raised e, st') ->
        e = expected_name
        /\ is_Some (_collection st' !! to_string W name)
        /\ _facts st' !! to_string W name = None
        /\ ruby_value W name st = (Raised e, st'))
  /\ (forall v st', ruby_fact W name st = (Return v, st') ->
        (v = Qnil /\ ruby_value W name st = (Return Qnil, st'))
        \/ exists id, v = FactObj id /\ _facts st' !! to_string W name = Some id).
Proof.
  intros Hsym Hstr.
  assert (Hnorm : normalize name = name) by by apply normalize_other.
  split; [exact Hnorm|]. split.
  { intros id Hcached. apply load_fact_cached. by rewrite Hnorm. }
  assert (Hshape : match ruby_fact W name st with
          | (Raised e, st') =>
              e = expected_name
              /\ is_Some (_collection st' !! to_string W name)
              /\ _facts st' !! to_string W name = None
          | (Return v, st') =>
              v = Qnil
              \/ exists id, v = FactObj id /\ _facts st' !! to_string W name = Some id
          end).
  { unfold ruby_fact, load_fact. rewrite Hnorm.
    destruct (_facts st !! to_string W name) as [id|] eqn:Hcached; [right; eauto|].
    destruct (_loaded_all st); simpl.
    - by apply load_fact_fallback_other.
    - set (st1 := load_by_name W _ _ _).
      destruct (_facts st1 !! to_string W name) as [id|] eqn:Hfound; [right; eauto|].
      by apply load_fact_fallback_other. }
  split.
  - intros e st' Hraise. rewrite Hraise in Hshape.
    destruct Hshape as (-> & Hnative & Hmiss). repeat split; try done.
    unfold ruby_value, fact_value, bind. unfold ruby_fact in Hraise. by rewrite Hraise.
  - intros v st' Hret. rewrite Hret in Hshape.
    destruct Hshape as [->|Hhandle]; [left|by right].
    split; [done|]. unfold ruby_value, fact_value, bind.
    unfold ruby_fact in Hret. by rewrite Hret.
Qed.

Lemma load_fact_other_names_witness :
  Exc rb_eTypeError "expected a String or Symbol for fact name" = expected_name
  /\ is_Some (_collection (facts Sample.W Sample.st_discovered) !! "kernel")
  /\ _facts (facts Sample.W Sample.st_discovered) !! "kernel" = None
  /\ ruby_value Sample.W (Object "Kernel" "kernel") Sample.st_discovered
     = (Raised (Exc rb_eTypeError "expected a String or Symbol for fact name"),
        facts Sample.W Sample.st_discovered).
Proof.
  pose proof (proj1 (proj2 (proj2
    (load_fact_other_names Sample.W (Object "Kernel" "kernel") Sample.st_discovered
       ltac:(reflexivity) ltac:(reflexivity))))
    (Exc rb_eTypeError "expected a String or Symbol for fact name")
    (facts Sample.W Sample.st_discovered) ltac:(vm_compute; reflexivity)) as H.
  exact H.
Defined.

(** C7 as stated fails: the lookup of the number 5 raises nothing; [fact],
    [[]] and [value] answer nil. *)
Lemma load_fact_number_returns_nil :
  is_symbol (Fixnum 5) = false
  /\ is_string (Fixnum 5) = false
  /\ fst (ruby_fact Sample.W (Fixnum 5) Sample.st0) = Return Qnil
  /\ fst (ruby_value Sample.W (Fixnum 5) Sample.st0) = Return Qnil.
Proof. vm_compute. auto. Qed.

(** ** Adding a fact *)

Section Add.

Context {VM : Type} (W : World VM).

Lemma fact_set_value_lookup (f : nat) (v : VALUE) (st : state VM) :
  objects (fact_set_value f v st) !! f = fact_force_value v <$> objects st !! f.
Proof. unfold fact_set_value. simpl. apply lookup_alter_eq. Qed.

Lemma fact_set_value_other (f g : nat) (v : VALUE) (st : state VM) :
  f <> g -> objects (fact_set_value f v st) !! g = objects st !! g.
Proof. intros Hne. unfold fact_set_value. simpl. by apply lookup_alter_ne. Qed.

Lemma resolution_name_state (options : VALUE) (st st' : state VM) (r : VALUE * VALUE) :
  resolution_name options st = (Return r, st') -> st' = st.
Proof.
  unfold resolution_name. destruct options; simpl; try discriminate; by intros [= _ <-].
Qed.

(** [ruby_add] from the protected call on, once the fact and the resolution
    name are there. *)
Lemma ruby_add_protected (argv0 : VALUE) (rest : list VALUE) (blk : option (block VM))
    (st st1 : state VM) (f : nat) (name options : VALUE) :
  (length rest <= 1)%nat ->
  create_fact W argv0 st = (Return (FactObj f), st1) ->
  resolution_name (match rest with [o] => o | _ => Qnil end) st1
  = (Return (name, options), st1) ->
  ruby_add W (argv0 :: rest) blk st
  = match define_and_evaluate W f name options blk st1 with
    | (Raised tag, st2) => (Raised tag, fact_set_value f Qnil st2)
    | (Return _, st2) => (Return (FactObj f), st2)
    end.
Proof.
  intros Hargc Hcreate Hname.
  assert (Hshape : rest = [] \/ exists o, rest = [o]).
  { destruct rest as [|o [|o' rest']]; [by left | right; eauto | simpl in Hargc; lia]. }
  assert (Hbody : ruby_add W (argv0 :: rest) blk
    = bind (create_fact W argv0) (fun self =>
        match self with
        | FactObj f =>
            bind (resolution_name (match rest with [o] => o | _ => Qnil end))
              (fun x => match x with
                 | (name, options) => fun st =>
                     match protect (define_and_evaluate W f name options blk) st with
                     | (Some tag, st) => (Raised tag, fact_set_value f Qnil st)
                     | (None, st) => (Return (FactObj f), st)
                     end
                 end)
        | _ => ret self
        end)).
  { destruct Hshape as [->|[o ->]]; reflexivity. }
  rewrite Hbody. unfold bind at 1. rewrite Hcreate.
  unfold bind. rewrite Hname. unfold protect.
  by destruct (define_and_evaluate W f name options blk st1) as [[v|tag] st2].
Qed.

End Add.

(** C5: the normalizer turns a symbol into its string form and lower-cases a
    string (so both spellings end lower-cased) and leaves any other value
    unchanged; hence a fact added under a symbol spelling and looked up under a
    string spelling that differs in case only are the same registry entry: the
    lookup returns the very handle that [create_fact], the registry step of
    [add], returned, and [value] is computed from it; so it is after a whole
    call of [add] whose resolution and block leave the entry in place. *)
Theorem fact_names_case_insensitive {VM : Type} (W : World VM) :
  (forall s, normalize (Symbol s) = rb_downcase (rb_sym_to_s (Symbol s))
             /\ normalize (Symbol s) = Str (downcase s))
  /\ (forall s, normalize (Str s) = Str (downcase s))
  /\ (forall v, is_symbol v = false -> is_string v = false -> normalize v = v)
  /\ (forall (a b : string) (st st' : state VM) (h : VALUE),
        downcase a = downcase b ->
        create_fact W (Symbol a) st = (Return h, st') ->
        exists id, h = FactObj id
          /\ _facts st' !! downcase b = Some id
          /\ load_fact W (Str b) st' = (Return h, st')
          /\ ruby_fact W (Str b) st' = (Return h, st')
          /\ ruby_value W (Str b) st' = fact_value_of W id st')
  /\ (forall (a b : string) (blk : option (block VM)) (st st1 st2 : state VM)
             (id : nat) (v : VALUE),
        downcase a = downcase b ->
        create_fact W (Symbol a) st = (Return (FactObj id), st1) ->
        define_and_evaluate W id Qnil Qnil blk st1 = (Return v, st2) ->
        _facts st2 !! downcase a = Some id ->
        ruby_add W [Symbol a] blk st = (Return (FactObj id), st2)
        /\ ruby_fact W (Str b) st2 = (Return (FactObj id), st2)
        /\ ruby_value W (Str b) st2 = fact_value_of W id st2).
Proof.
  split; [by intros s|]. split; [by intros s|].
  split; [apply normalize_other|]. split.
  - intros a b st st' h Hcase Hadd.
    destruct (create_fact_registers W _ _ _ _ Hadd) as (id & -> & Hreg).
    rewrite key_of_symbol, Hcase in Hreg.
    assert (Hload : load_fact W (Str b) st' = (Return (FactObj id), st'))
      by (apply load_fact_cached; by rewrite key_of_string).
    exists id. repeat split; try done.
    unfold ruby_value, fact_value, bind. by rewrite Hload.
  - intros a b blk st st1 st2 id v Hcase Hcreate Hdefine Hentry.
    pose proof (ruby_add_protected W (Symbol a) [] blk st st1 id Qnil Qnil
                  ltac:(simpl; lia) Hcreate ltac:(reflexivity)) as Hadd.
    rewrite Hdefine in Hadd.
    assert (Hload : load_fact W (Str b) st2 = (Return (FactObj id), st2))
      by (apply load_fact_cached; by rewrite key_of_string, <- Hcase).
    split; [exact Hadd|]. split; [exact Hload|].
    unfold ruby_value, fact_value, bind. by rewrite Hload.
Qed.

Lemma fact_names_case_insensitive_witness :
  ruby_add Sample.W [Symbol "Foo"] None Sample.st0
  = (Return (FactObj 0), snd (create_fact Sample.W (Symbol "Foo") Sample.st0))
  /\ ruby_fact Sample.W (Str "foo") (snd (create_fact Sample.W (Symbol "Foo") Sample.st0))
     = (Return (FactObj 0), snd (create_fact Sample.W (Symbol "Foo") Sample.st0))
  /\ ruby_value Sample.W (Str "foo") (snd (create_fact Sample.W (Symbol "Foo") Sample.st0))
     = fact_value_of Sample.W 0 (snd (create_fact Sample.W (Symbol "Foo") Sample.st0)).
Proof.
  apply (proj2 (proj2 (proj2 (proj2 (fact_names_case_insensitive Sample.W))))
           "Foo" "foo" None Sample.st0
           (snd (create_fact Sample.W (Symbol "Foo") Sample.st0))
           (snd (create_fact Sample.W (Symbol "Foo") Sample.st0)) 0 Qnil).
  - reflexivity.
  - vm_compute. reflexivity.
  - vm_compute. reflexivity.
  - vm_compute. reflexivity.
Defined.

(** C3: in a call of [add] (with a block or without), once the fact is there
    and the resolution name has been read from the options, a failure of the
    resolution definition or of the block forces the cached value of the fact
    to nil (and marks it resolved) in the state in which the failure reaches
    the caller, the same failure being re-signaled; when neither fails, [add]
    returns the fact handle. *)
Theorem ruby_add_failure_unsets_value {VM : Type} (W : World VM)
    (argv0 : VALUE) (rest : list VALUE) (blk : option (block VM))
    (st st1 : state VM) (f : nat) (name options : VALUE) :
  (length rest <= 1)%nat ->
  create_fact W argv0 st = (Return (FactObj f), st1) ->
  resolution_name (match rest with [o] => o | _ => Qnil end) st1
  = (Return (name, options), st1) ->
  (forall tag st2,
     define_and_evaluate W f name options blk st1 = (Raised tag, st2) ->
     exists st3,
       ruby_add W (argv0 :: rest) blk st = (Raised tag, st3)
       /\ st3 = fact_set_value f Qnil st2
       /\ objects st3 !! f = fact_force_value Qnil <$> objects st2 !! f
       /\ (forall o, objects st2 !! f = Some o ->
             exists o', objects st3 !! f = Some o'
               /\ fact_value_cached o' = Qnil /\ fact_resolved o' = true
               /\ fact_name o' = fact_name o))
  /\ (forall v st2,
        define_and_evaluate W f name options blk st1 = (Return v, st2) ->
        ruby_add W (argv0 :: rest) blk st = (Return (FactObj f), st2)).
Proof.
  intros Hargc Hcreate Hname.
  pose proof (ruby_add_protected W argv0 rest blk st st1 f name options
                Hargc Hcreate Hname) as Hadd.
  split.
  - intros tag st2 Hfail. rewrite Hfail in Hadd.
    exists (fact_set_value f Qnil st2). split; [exact Hadd|]. split; [reflexivity|].
    split; [apply fact_set_value_lookup|].
    intros o Ho. exists (fact_force_value Qnil o).
    rewrite fact_set_value_lookup, Ho. auto.
  - intros v st2 Hok. by rewrite Hok in Hadd.
Qed.

Lemma ruby_add_failure_unsets_value_witness :
  exists st3,
    ruby_add Sample.W [Symbol "uptime"] (Some Sample.failing_block) Sample.st0
    = (Raised (Exc "RuntimeError" "block failed"), st3)
    /\ st3 = fact_set_value 0 Qnil Sample.st_added
    /\ objects st3 !! 0 = fact_force_value Qnil <$> objects Sample.st_added !! 0
    /\ (forall o, objects Sample.st_added !! 0 = Some o ->
          exists o', objects st3 !! 0 = Some o'
            /\ fact_value_cached o' = Qnil /\ fact_resolved o' = true
            /\ fact_name o' = fact_name o).
Proof.
  apply (proj1 (ruby_add_failure_unsets_value Sample.W (Symbol "uptime") []
                  (Some Sample.failing_block) Sample.st0 Sample.st_added 0 Qnil Qnil
                  ltac:(simpl; lia) ltac:(vm_compute; reflexivity) ltac:(reflexivity))
           (Exc "RuntimeError" "block failed") Sample.st_added).
  vm_compute. reflexivity.
Defined.

(** A resolution that cannot be defined and a block that fails: both calls of
    [add] raise and leave the fact resolved to nil. *)
Example ruby_add_failures :
  let '(r1, s1) := ruby_add Sample.W [Symbol "Uptime"; Hash [(Symbol "name", Str "bad")]]
                     None Sample.st0 in
  let '(r2, s2) := ruby_add Sample.W [Str "uptime"] (Some Sample.failing_block)
                     Sample.st0 in
  r1 = Raised (Exc rb_eArgError "bad resolution")
  /\ objects s1 !! 0 = Some (mk_fact (Str "uptime") Qnil true)
  /\ r2 = Raised (Exc "RuntimeError" "block failed")
  /\ objects s2 !! 0 = Some (mk_fact (Str "uptime") Qnil true)
  /\ fst (ruby_add Sample.W [Symbol "uptime"] None Sample.st0) = Return (FactObj 0)
  /\ objects (snd (ruby_add Sample.W [Symbol "uptime"] None Sample.st0)) !! 0
     = Some (mk_fact (Str "uptime") Qnil false).
Proof. vm_compute. auto 7. Qed.

(** ** Search paths *)

Section RemoveIf.

Variable residue : string -> string -> string.
Variable p : string -> bool.

Lemma find_if_le (v : list string) : (find_if p v <= length v)%nat.
Proof. induction v as [|x v IH]; simpl; [lia|]. destruct (p x); simpl; lia. Qed.

Lemma find_if_prefix (v : list string) : kept p (take (find_if p v) v) = take (find_if p v) v.
Proof.
  induction v as [|x v IH]; simpl; [reflexivity|].
  destruct (p x) eqn:Hp; simpl; [reflexivity|]. rewrite Hp. simpl. by f_equal.
Qed.

Lemma find_if_found (v : list string) :
  (find_if p v < length v)%nat ->
  exists x, v !! find_if p v = Some x /\ p x = true.
Proof.
  induction v as [|x v IH]; simpl; [lia|].
  destruct (p x) eqn:Hp; simpl; [eauto|]. intros Hlt. apply IH. lia.
Qed.

Lemma find_if_none (v : list string) : find_if p v = length v -> kept p v = v.
Proof.
  induction v as [|x v IH]; simpl; [reflexivity|].
  destruct (p x) eqn:Hp; simpl; [discriminate|]. intros [= Hlen]. by rewrite IH.
Qed.

Lemma kept_app (v w : list string) : kept p (v ++ w) = kept p v ++ kept p w.
Proof. apply List.filter_app. Qed.

(** The loop keeps the size of the container and leaves, before the iterator
    it returns, what was there before followed by the kept elements of the
    part visited. *)
Lemma remove_if_loop_spec (n first i : nat) (v : list string) :
  (first < i)%nat -> (i + n = length v)%nat ->
  let r := remove_if_loop residue p n first i v in
  length (fst r) = length v
  /\ take (snd r) (fst r) = take first v ++ kept p (drop i v)
  /\ snd r = (first + length (kept p (drop i v)))%nat.
Proof.
  revert first i v. induction n as [|n IH]; intros first i v Hlt Hlen; simpl.
  - rewrite drop_ge by lia. simpl. rewrite app_nil_r. repeat split; lia.
  - destruct (lookup_lt_is_Some_2 v i ltac:(lia)) as [x Hx].
    destruct (lookup_lt_is_Some_2 v first ltac:(lia)) as [d Hd].
    rewrite Hx, Hd. rewrite (drop_S v x i Hx). simpl.
    destruct (p x) eqn:Hp; simpl.
    + apply IH; lia.
    + set (v2 := <[i := residue d x]> (<[first := x]> v)).
      assert (Hlen2 : length v2 = length v) by (unfold v2; by rewrite !length_insert).
      destruct (IH (S first) (S i) v2 ltac:(lia) ltac:(lia)) as (Hl & Ht & Hs).
      assert (Hdrop : drop (S i) v2 = drop (S i) v).
      { unfold v2. rewrite drop_insert_lt by lia. by rewrite drop_insert_lt by lia. }
      assert (Htake : take (S first) v2 = take first v ++ [x]).
      { unfold v2. rewrite take_insert_ge by lia.
        rewrite (take_S_r _ first x).
        - by rewrite take_insert_ge by lia.
        - apply list_lookup_insert_eq. lia. }
      rewrite Hdrop in Ht, Hs. rewrite Htake in Ht.
      split; [lia|]. split.
      * rewrite Ht. by rewrite <- app_assoc.
      * simpl. lia.
Qed.

Lemma remove_if_spec (v : list string) :
  let r := remove_if residue p v in
  length (fst r) = length v
  /\ take (snd r) (fst r) = kept p v
  /\ snd r = length (kept p v).
Proof.
  unfold remove_if. pose proof (find_if_le v) as Hle.
  destruct (find_if p v <? length v)%nat eqn:Hfound.
  - apply Nat.ltb_lt in Hfound.
    destruct (find_if_found v Hfound) as (x & Hx & Hp).
    destruct (remove_if_loop_spec (length v - S (find_if p v)) (find_if p v)
                (S (find_if p v)) v ltac:(lia) ltac:(lia)) as (Hl & Ht & Hs).
    assert (Hsplit : kept p v = take (find_if p v) v ++ kept p (drop (S (find_if p v)) v)).
    { rewrite <- (take_drop (find_if p v) v) at 1.
      rewrite kept_app, find_if_prefix. f_equal.
      rewrite (drop_S v x _ Hx). simpl. by rewrite Hp. }
    split; [exact Hl|]. split; [by rewrite Hsplit|].
    rewrite Hs, Hsplit, length_app, length_take. lia.
  - apply Nat.ltb_ge in Hfound. assert (Heq : find_if p v = length v) by lia.
    simpl. rewrite (find_if_none v Heq). rewrite Heq.
    split; [done|]. split; [apply firstn_all | done].
Qed.

End RemoveIf.

Section SearchPaths.

Context {VM : Type} (W : World VM).

Lemma log_not_searched_members (directories : list string) (st : state VM) :
  _search_paths (foldl (fun st d => log_not_searched W d st) st directories)
  = _search_paths st
  /\ _additional_search_paths (foldl (fun st d => log_not_searched W d st) st directories)
     = _additional_search_paths st.
Proof.
  revert st. induction directories as [|d ds IH]; intros st; [done|].
  simpl. destruct (IH (log_not_searched W d st)) as [-> ->].
  unfold log_not_searched. by destruct (canonical W d).
Qed.

(** The vector [initialize_search_paths] leaves: [remove_if] applied to the
    canonical transform of the candidates, its size untouched. *)
Lemma initialize_search_paths_vector (paths : list string) (st : state VM) :
  _search_paths (initialize_search_paths W paths st)
  = fst (remove_if (moved_from W) string_empty
           (map (canonical_or_empty W) (candidate_paths W paths st)))
  /\ _additional_search_paths (initialize_search_paths W paths st) = [].
Proof.
  unfold initialize_search_paths. simpl.
  match goal with
  | |- context [foldl ?f ?s ?l] =>
      destruct (log_not_searched_members l s) as [Hsp Hadd]
  end.
  rewrite Hsp, Hadd. done.
Qed.

Lemma kept_canonical_sound (candidates : list string) (entry : string) :
  entry ∈ kept string_empty (map (canonical_or_empty W) candidates) ->
  exists directory, directory ∈ candidates /\ canonical W directory = Some entry.
Proof.
  unfold kept. intros Hin. apply list_elem_of_In in Hin.
  apply List.filter_In in Hin as [Hin Hnonempty].
  apply List.in_map_iff in Hin as (directory & Hcanon & Hin).
  exists directory. split; [by apply list_elem_of_In|].
  unfold canonical_or_empty in Hcanon.
  destruct (canonical W directory) as [dir|]; [by subst|].
  subst entry. discriminate.
Qed.

Lemma kept_canonical_omap (candidates : list string) :
  (forall directory, canonical W directory <> Some EmptyString) ->
  kept string_empty (map (canonical_or_empty W) candidates) = omap (canonical W) candidates.
Proof.
  intros Hnonempty. induction candidates as [|d ds IH]; [reflexivity|].
  unfold kept in *. simpl.
  destruct (canonical W d) as [[|c dir]|] eqn:Hd.
  - by destruct (Hnonempty d).
  - assert (Hcanon : canonical_or_empty W d = String c dir)
      by (unfold canonical_or_empty; by rewrite Hd).
    rewrite Hcanon. simpl. by rewrite IH.
  - assert (Hcanon : canonical_or_empty W d = EmptyString)
      by (unfold canonical_or_empty; by rewrite Hd).
    rewrite Hcanon. simpl. exact IH.
Qed.

(** Where the removal has nothing to move, the empty strings stay: with one
    candidate, which does not canonicalize, the search path is one empty
    string. *)
Lemma initialize_search_paths_keeps_empty (directory : string) (st : state VM) :
  candidate_paths W [directory] st = [directory] ->
  canonical W directory = None ->
  _search_paths (initialize_search_paths W [directory] st) = [EmptyString].
Proof.
  intros Hcandidates Hfails.
  rewrite (proj1 (initialize_search_paths_vector [directory] st)), Hcandidates.
  simpl. unfold canonical_or_empty. by rewrite Hfails.
Qed.

End SearchPaths.

(** C6, as the code has it: after [initialize_search_paths] (at construction
    and on every reset) AdditionalSearchPaths is empty and SearchPathSet has
    one slot per candidate path (the [facter] directories of the load path,
    the FACTERLIB entries, the given paths); its leading slots, up to the end
    the removal step computes, hold in order the canonical forms of the
    candidates that canonicalize, each of them the canonical form of a
    candidate, and a directory reached through several candidates is there
    once for each: nothing removes duplicates. *)
Theorem initialize_search_paths_canonical {VM : Type} (W : World VM)
    (paths : list string) (st : state VM) :
  let candidates := candidate_paths W paths st in
  let searched := kept string_empty (map (canonical_or_empty W) candidates) in
  let st' := initialize_search_paths W paths st in
  _additional_search_paths st' = []
  /\ length (_search_paths st') = length candidates
  /\ take (length searched) (_search_paths st') = searched
  /\ (forall entry, entry ∈ searched ->
        exists directory, directory ∈ candidates /\ canonical W directory = Some entry)
  /\ ((forall directory, canonical W directory <> Some EmptyString) ->
      searched = omap (canonical W) candidates)
  /\ _search_paths (snd (ruby_reset W st)) = _search_paths (initialize_search_paths W [] st).
Proof.
  intros candidates searched st'.
  destruct (initialize_search_paths_vector W paths st) as [Hvector Hadditional].
  destruct (remove_if_spec (moved_from W) string_empty
              (map (canonical_or_empty W) candidates)) as (Hlength & Hprefix & Hend).
  split; [exact Hadditional|]. split; [|split; [|split; [|split]]].
  - unfold st'. rewrite Hvector. fold candidates. rewrite Hlength. apply length_map.
  - unfold st'. rewrite Hvector. fold candidates. unfold searched.
    by rewrite <- Hend.
  - apply kept_canonical_sound.
  - apply kept_canonical_omap.
  - unfold ruby_reset, set_loaded_files, set_loaded_all, set_external_search_paths.
    cbn [snd _search_paths].
    rewrite !(proj1 (initialize_search_paths_vector W [] _)).
    unfold clear_facts. by destruct (clear_collection_default W).
Qed.

Lemma example_canonical_nonempty :
  forall directory, canonical Sample.W directory <> Some EmptyString.
Proof.
  intros directory. simpl. unfold Sample.canon.
  destruct (String.eqb directory "/link"); [discriminate|].
  destruct (Sample.mem directory Sample.directories) eqn:Hmem; [|discriminate].
  intros [= ->]. discriminate.
Qed.

Lemma initialize_search_paths_canonical_witness :
  kept string_empty
    (map (canonical_or_empty Sample.W)
       (candidate_paths Sample.W ["/d1"; "/nowhere"; "/d3"] Sample.blank))
  = omap (canonical Sample.W)
      (candidate_paths Sample.W ["/d1"; "/nowhere"; "/d3"] Sample.blank).
Proof.
  apply (initialize_search_paths_canonical Sample.W ["/d1"; "/nowhere"; "/d3"] Sample.blank).
  exact example_canonical_nonempty.
Defined.

(** C6 as stated fails: two given paths with one canonical form are both in
    SearchPathSet. *)
Lemma initialize_search_paths_duplicates :
  canonical Sample.W "/d1" = Some "/d1"
  /\ canonical Sample.W "/link" = Some "/d1"
  /\ _search_paths (initialize_search_paths Sample.W ["/d1"; "/link"] Sample.blank)
     = ["/lib/facter"; "/d1"; "/d1"]
  /\ ~ NoDup (_search_paths (initialize_search_paths Sample.W ["/d1"; "/link"] Sample.blank)).
Proof.
  split; [reflexivity|]. split; [reflexivity|]. split; [reflexivity|].
  change (~ NoDup ["/lib/facter"; "/d1"; "/d1"]).
  intros Hnodup. apply NoDup_cons in Hnodup as [_ Hnodup].
  apply NoDup_cons in Hnodup as [Hout _]. apply Hout. set_solver.
Qed.

(** The search path of the example bridge, and the one left when a given path
    does not canonicalize: its slot stays, emptied. *)
Example initialize_search_paths_examples :
  _search_paths Sample.st0 = ["/lib/facter"; "/d1"; "/d3"]
  /\ _search_paths (initialize_search_paths Sample.W ["/nowhere"; "/d1"] Sample.blank)
     = ["/lib/facter"; "/d1"; EmptyString].
Proof. split; reflexivity. Qed.

(** * Further properties of module.cc *)

(** ** Full discovery *)

Section Discovery.

Context {VM : Type} (W : World VM).

Lemma load_files_loads (Hkeep : scripts_keep_loaded_files W)
    (files : list string) (st : state VM) (file : string) :
  file ∈ files ->
  file ∈ _loaded_files (foldl (fun st f => load_file W f st) st files).
Proof.
  assert (Hfold : forall fs (s : state VM),
             _loaded_files s ⊆ _loaded_files (foldl (fun s f => load_file W f s) s fs)).
  { induction fs as [|f fs IH]; intros s; [done|].
    simpl. etrans; [apply (load_file_keeps W Hkeep f)|]. apply IH. }
  revert st. induction files as [|f fs IH]; intros st Hin; [by apply elem_of_nil in Hin|].
  apply elem_of_cons in Hin as [->|Hin]; simpl.
  - apply Hfold. by apply load_file_loads.
  - by apply IH.
Qed.

Lemma load_directories_loads (Hkeep : scripts_keep_loaded_files W)
    (directories : list string) (st : state VM) (directory file : string) :
  directory ∈ directories ->
  file ∈ each_file W directory ->
  file ∈ _loaded_files (foldl (fun st d => load_directory W d st) st directories).
Proof.
  intros Hdir Hfile.
  assert (Hfold : forall ds (s : state VM),
             _loaded_files s ⊆ _loaded_files (foldl (fun s d => load_directory W d s) s ds)).
  { induction ds as [|d ds IH]; intros s; [done|].
    simpl. etrans; [apply (load_directory_keeps W Hkeep d)|]. apply IH. }
  revert st. induction directories as [|d ds IH]; intros st; [by apply elem_of_nil in Hdir|].
  apply elem_of_cons in Hdir as [->|Hdir]; simpl.
  - apply Hfold. unfold load_directory. by apply load_files_loads.
  - by apply IH.
Qed.

End Discovery.

(** X1: a full discovery pass is idempotent: [load_facts] run again on the
    state it left returns it unchanged (no scan, no line logged), and so does
    [loadfacts]. *)
Theorem load_facts_idempotent {VM : Type} (W : World VM) (st : state VM) :
  load_facts W (load_facts W st) = load_facts W st
  /\ ruby_loadfacts W (snd (ruby_loadfacts W st)) = (Return Qnil, snd (ruby_loadfacts W st)).
Proof.
  assert (Hagain : load_facts W (load_facts W st) = load_facts W st)
    by (apply load_facts_done, load_facts_sets_flag).
  split; [exact Hagain|]. unfold ruby_loadfacts. simpl. by rewrite Hagain.
Qed.

(** X2: full discovery loads every file that [each_file] lists in every
    directory of the search path, whether or not files before it raised: when
    no script shrinks the loaded-file set, each of them is in [_loaded_files]
    once [load_facts] returns. *)
Theorem load_facts_loads_every_file {VM : Type} (W : World VM) (st : state VM)
    (directory file : string) :
  scripts_keep_loaded_files W ->
  _loaded_all st = false ->
  directory ∈ _search_paths st ->
  file ∈ each_file W directory ->
  file ∈ _loaded_files (load_facts W st).
Proof.
  intros Hkeep Hflag Hdir Hfile. unfold load_facts. rewrite Hflag. simpl.
  by apply (load_directories_loads W Hkeep _ _ directory).
Qed.

Lemma load_facts_loads_every_file_witness :
  "/d1/memory.rb" ∈ _loaded_files (load_facts Sample.W Sample.st0)
  /\ "/d3/os.rb" ∈ _loaded_files (load_facts Sample.W Sample.st0).
Proof.
  split.
  - apply (load_facts_loads_every_file Sample.W Sample.st0 "/d1" "/d1/memory.rb"
             example_scripts_keep_loaded_files); [reflexivity | | ]; vm_compute; set_solver.
  - apply (load_facts_loads_every_file Sample.W Sample.st0 "/d3" "/d3/os.rb"
             example_scripts_keep_loaded_files); [reflexivity | | ]; vm_compute; set_solver.
Defined.

(** ** What a lookup answers *)

Section Lookup.

Context {VM : Type} (W : World VM).

Lemma create_fact_of_name (name : VALUE) (st : state VM) :
  is_string name || is_symbol name = true ->
  exists id st', create_fact W name st = (Return (FactObj id), st').
Proof.
  intros Hname. unfold create_fact.
  replace (negb (is_string name) && negb (is_symbol name)) with false
    by (destruct (is_string name), (is_symbol name); done).
  destruct (_facts st !! to_string W (normalize name)); [eauto|].
  unfold fact_create. eauto.
Qed.

Lemma normalize_name (name : VALUE) :
  is_string name || is_symbol name = true -> is_string (normalize name) = true.
Proof. by destruct name. Qed.

(** The three ways the tail of a lookup ends. *)
Lemma load_fact_fallback_cases (name : VALUE) (st st' : state VM) (r : outcome VALUE) :
  load_fact_fallback W (normalize name) (to_string W (normalize name)) st = (r, st') ->
  (exists id, r = Return (FactObj id) /\ _facts st' !! to_string W (normalize name) = Some id)
  \/ (r = Return Qnil /\ _loaded_all st' = true)
  \/ (r = Raised expected_name /\ is_string name || is_symbol name = false).
Proof.
  unfold load_fact_fallback.
  destruct (_collection (facts W st) !! to_string W (normalize name)).
  - destruct (is_string name || is_symbol name) eqn:Hname.
    + intros Hcreate. left.
      destruct (create_fact_of_name (normalize name) (facts W st)) as (id & st1 & Hc).
      { by rewrite (normalize_name name Hname). }
      rewrite Hc in Hcreate. injection Hcreate as <- <-.
      destruct (create_fact_registers W _ _ _ _ Hc) as (id' & [= <-] & Hreg).
      rewrite normalize_idempotent in Hreg. eauto.
    + apply orb_false_iff in Hname as [Hstr Hsym].
      rewrite normalize_other by done.
      rewrite create_fact_other by done. intros [= <- <-]. by right; right.
  - destruct (_facts (load_facts W (facts W st)) !! to_string W (normalize name))
      as [id|] eqn:Hfound.
    + intros [= <- <-]. left. eauto.
    + intros [= <- <-]. right; left. split; [done|]. simpl. apply load_facts_sets_flag.
Qed.

Lemma load_fact_cases (name : VALUE) (st st' : state VM) (r : outcome VALUE) :
  load_fact W name st = (r, st') ->
  (exists id, r = Return (FactObj id) /\ _facts st' !! to_string W (normalize name) = Some id)
  \/ (r = Return Qnil /\ _loaded_all st' = true)
  \/ (r = Raised expected_name /\ is_string name || is_symbol name = false).
Proof.
  unfold load_fact.
  destruct (_facts st !! to_string W (normalize name)) as [id|] eqn:Hcached.
  - intros [= <- <-]. left. eauto.
  - destruct (_loaded_all st); simpl.
    + apply load_fact_fallback_cases.
    + set (st1 := load_by_name W _ _ _).
      destruct (_facts st1 !! to_string W (normalize name)) as [id|] eqn:Hfound.
      * intros [= <- <-]. left. eauto.
      * apply load_fact_fallback_cases.
Qed.

End Lookup.

(** X3: a lookup is stable: once [load_fact] has answered a handle, the same
    lookup on the state it left answers the same handle and changes nothing
    (no scan, no file loaded, no line logged). *)
Theorem load_fact_stable {VM : Type} (W : World VM)
    (name : VALUE) (st st' : state VM) (id : nat) :
  load_fact W name st = (Return (FactObj id), st') ->
  load_fact W name st' = (Return (FactObj id), st')
  /\ ruby_fact W name st' = (Return (FactObj id), st').
Proof.
  intros Hload.
  destruct (load_fact_cases W name st st' _ Hload) as
    [(id' & [= <-] & Hreg) | [[[=] _] | [[=] _]]].
  split; by apply load_fact_cached.
Qed.

Lemma load_fact_stable_witness :
  load_fact Sample.W (Str "OS") (snd (load_fact Sample.W (Symbol "os") Sample.st0))
  = (Return (FactObj 0), snd (load_fact Sample.W (Symbol "os") Sample.st0)).
Proof.
  apply (load_fact_stable Sample.W (Str "OS") Sample.st0).
  vm_compute. reflexivity.
Defined.

(** X4: the lookup of a name given as a string or a symbol never raises: it
    answers a fact handle, which is then the registry entry of the lower-cased
    name, or nil. *)
Theorem load_fact_of_name_never_raises {VM : Type} (W : World VM)
    (name : VALUE) (st : state VM) :
  is_string name || is_symbol name = true ->
  exists v st',
    load_fact W name st = (Return v, st')
    /\ (v = Qnil
        \/ exists id, v = FactObj id
             /\ _facts st' !! to_string W (normalize name) = Some id).
Proof.
  intros Hname.
  destruct (load_fact W name st) as [r st'] eqn:Hload.
  destruct (load_fact_cases W name st st' r Hload) as
    [(id & -> & Hreg) | [[-> _] | [_ Hother]]].
  - exists (FactObj id), st'. split; [done|]. right. eauto.
  - exists Qnil, st'. split; [done|]. by left.
  - congruence.
Qed.

Lemma load_fact_of_name_never_raises_witness :
  exists v st',
    load_fact Sample.W (Str "nothing") Sample.st0 = (Return v, st')
    /\ (v = Qnil
        \/ exists id, v = FactObj id
             /\ _facts st' !! to_string Sample.W (normalize (Str "nothing")) = Some id).
Proof.
  apply (load_fact_of_name_never_raises Sample.W (Str "nothing") Sample.st0).
  reflexivity.
Defined.

(** X5: a lookup that answers nil has been through full discovery: the
    all-loaded flag is set in the state it leaves, so [load_facts] has nothing
    left to do there. *)
Theorem load_fact_nil_after_discovery {VM : Type} (W : World VM)
    (name : VALUE) (st st' : state VM) :
  load_fact W name st = (Return Qnil, st') ->
  _loaded_all st' = true /\ load_facts W st' = st'.
Proof.
  intros Hload.
  destruct (load_fact_cases W name st st' _ Hload) as
    [(id & [=] & _) | [[_ Hflag] | [[=] _]]].
  split; [exact Hflag | by apply load_facts_done].
Qed.

Lemma load_fact_nil_after_discovery_witness :
  _loaded_all (snd (load_fact Sample.W (Fixnum 5) Sample.st0)) = true
  /\ load_facts Sample.W (snd (load_fact Sample.W (Fixnum 5) Sample.st0))
     = snd (load_fact Sample.W (Fixnum 5) Sample.st0).
Proof.
  apply (load_fact_nil_after_discovery Sample.W (Fixnum 5) Sample.st0).
  vm_compute. reflexivity.
Defined.

(** ** Search path configuration *)

Section Configuration.

Context {VM : Type} (W : World VM).

Lemma search_fold_frame (argv : list VALUE) (st : state VM) :
  vm (foldl (fun st arg => search_one W arg st) st argv) = vm st
  /\ environ (foldl (fun st arg => search_one W arg st) st argv) = environ st.
Proof.
  revert st. induction argv as [|arg argv IH]; intros st; [done|].
  simpl. destruct (IH (search_one W arg st)) as [-> ->].
  unfold search_one. destruct (is_string arg); simpl; [|done].
  by destruct (canonical W (to_string W arg)).
Qed.

Lemma candidate_paths_frame (paths : list string) (st1 st2 : state VM) :
  vm st1 = vm st2 -> environ st1 = environ st2 ->
  candidate_paths W paths st1 = candidate_paths W paths st2.
Proof. intros Hvm Henv. unfold candidate_paths. by rewrite Hvm, Henv. Qed.

Lemma ruby_reset_search_paths (st : state VM) :
  _search_paths (snd (ruby_reset W st))
  = fst (remove_if (moved_from W) string_empty
           (map (canonical_or_empty W) (candidate_paths W [] st)))
  /\ _additional_search_paths (snd (ruby_reset W st)) = [].
Proof.
  unfold ruby_reset, set_loaded_files, set_loaded_all, set_external_search_paths.
  cbn [snd _search_paths _additional_search_paths].
  destruct (initialize_search_paths_vector W [] (clear_facts (clear_collection_default W) st))
    as [-> ->].
  split; [|done]. unfold clear_facts. by destruct (clear_collection_default W).
Qed.

Lemma initialize_search_paths_facts (paths : list string) (st : state VM) :
  _facts (initialize_search_paths W paths st) = _facts st.
Proof.
  unfold initialize_search_paths. simpl.
  assert (Hfold : forall ds (s0 : state VM),
            _facts (foldl (fun st d => log_not_searched W d st) s0 ds) = _facts s0).
  { induction ds as [|d ds IH]; intros s0; [done|].
    simpl. rewrite IH. unfold log_not_searched. by destruct (canonical W d). }
  by rewrite Hfold.
Qed.

Lemma ruby_reset_members (st : state VM) :
  _facts (snd (ruby_reset W st)) = ∅
  /\ _loaded_files (snd (ruby_reset W st)) = ∅
  /\ _loaded_all (snd (ruby_reset W st)) = false
  /\ _external_search_paths (snd (ruby_reset W st)) = [].
Proof.
  unfold ruby_reset, set_loaded_files, set_loaded_all, set_external_search_paths.
  cbn [snd _facts _loaded_files _loaded_all _external_search_paths].
  rewrite initialize_search_paths_facts.
  unfold clear_facts. by destruct (clear_collection_default W).
Qed.

Lemma strings_round_trip (argv : list VALUE) :
  map Str (map (to_string W) (List.filter is_string argv)) = List.filter is_string argv.
Proof.
  induction argv as [|arg argv IH]; [done|].
  simpl. destruct arg; simpl; try exact IH. by rewrite IH.
Qed.

Lemma search_external_fold (elements : list VALUE) (st : state VM) :
  _external_search_paths (foldl (fun st e => search_external_one W e st) st elements)
  = _external_search_paths st ++ map (to_string W) (List.filter is_string elements)
  /\ _collection (foldl (fun st e => search_external_one W e st) st elements)
     = _collection st.
Proof.
  revert st. induction elements as [|e es IH]; intros st; simpl.
  - by rewrite app_nil_r.
  - destruct (IH (search_external_one W e st)) as [-> ->].
    unfold search_external_one. destruct (is_string e); simpl; [|done].
    by rewrite <- app_assoc.
Qed.

End Configuration.

(** X6: [reset] discards the search paths added at run time: after
    [search(args)] and [reset], SearchPathSet is what [reset] alone would have
    left, [search_path] answers an empty list, and the registry, the
    loaded-file set, the all-loaded flag and the external search paths are
    cleared. *)
Theorem ruby_reset_discards_search {VM : Type} (W : World VM)
    (argv : list VALUE) (st : state VM) :
  let st' := snd (ruby_reset W (snd (ruby_search W argv st))) in
  _search_paths st' = _search_paths (snd (ruby_reset W st))
  /\ fst (ruby_search_path st') = Return []
  /\ _facts st' = ∅
  /\ _loaded_files st' = ∅
  /\ _loaded_all st' = false
  /\ _external_search_paths st' = [].
Proof.
  intros st'. unfold st'.
  destruct (ruby_reset_search_paths W (snd (ruby_search W argv st))) as [Hsp Hadd].
  destruct (ruby_reset_search_paths W st) as [Hsp0 _].
  destruct (search_fold_frame W argv st) as [Hvm Henv].
  split.
  - rewrite Hsp, Hsp0. f_equal. f_equal. f_equal.
    by apply candidate_paths_frame.
  - split; [|apply ruby_reset_members].
    change (Return (map rb_str_new_cstr (_additional_search_paths
                               (snd (ruby_reset W (snd (ruby_search W argv st))))))
            = Return ([] : list VALUE)).
    by rewrite Hadd.
Qed.

Lemma c_str_nul_free (s : string) : nul_free s = true -> c_str s = s.
Proof.
  induction s as [|c s IH]; simpl; [done|].
  destruct (Ascii.eqb c zero); simpl; [discriminate|]. intros H. by rewrite IH.
Qed.

Lemma c_strings_verbatim (paths : list string) :
  Forall (fun path => nul_free path = true) paths ->
  map rb_str_new_cstr paths = map Str paths.
Proof.
  induction 1 as [|path paths Hpath _ IH]; [done|].
  simpl. unfold rb_str_new_cstr at 1. by rewrite c_str_nul_free, IH.
Qed.

Lemma strings_nul_free {VM : Type} (W : World VM) (argv : list VALUE) :
  Forall (fun arg => nul_free (to_string W arg) = true) (List.filter is_string argv) ->
  Forall (fun path => nul_free path = true)
    (map (to_string W) (List.filter is_string argv)).
Proof. intros H. by apply Forall_fmap. Qed.

(** X7: [search] followed by [search_path] gives back, after the paths
    recorded before, the string arguments in order, whether or not they
    canonicalize, each as the C string of what was stored: cut at its first
    NUL byte, and so verbatim when there is none. *)
Theorem ruby_search_path_round_trip {VM : Type} (W : World VM)
    (argv : list VALUE) (st : state VM) :
  fst (ruby_search_path (snd (ruby_search W argv st)))
  = Return (map rb_str_new_cstr (_additional_search_paths st)
            ++ map (fun arg => rb_str_new_cstr (to_string W arg))
                 (List.filter is_string argv))
  /\ (Forall (fun path => nul_free path = true) (_additional_search_paths st) ->
      Forall (fun arg => nul_free (to_string W arg) = true) (List.filter is_string argv) ->
      fst (ruby_search_path (snd (ruby_search W argv st)))
      = Return (map Str (_additional_search_paths st) ++ List.filter is_string argv)).
Proof.
  assert (Hcut : fst (ruby_search_path (snd (ruby_search W argv st)))
    = Return (map rb_str_new_cstr (_additional_search_paths st)
              ++ map rb_str_new_cstr (map (to_string W) (List.filter is_string argv)))).
  { unfold ruby_search_path, ruby_search. simpl. f_equal.
    by rewrite search_fold_additional, map_app. }
  split.
  - rewrite Hcut. by rewrite <- list_fmap_compose.
  - intros Hold Hnew. rewrite Hcut. f_equal.
    rewrite (c_strings_verbatim _ Hold).
    rewrite (c_strings_verbatim _ (strings_nul_free W argv Hnew)).
    f_equal. apply strings_round_trip.
Qed.

Lemma ruby_search_path_round_trip_witness :
  fst (ruby_search_path
         (snd (ruby_search Sample.W [Str "/link"; Fixnum 3; Str "/nowhere"] Sample.st0)))
  = Return ([] ++ [Str "/link"; Str "/nowhere"]).
Proof.
  apply (ruby_search_path_round_trip Sample.W [Str "/link"; Fixnum 3; Str "/nowhere"]
           Sample.st0).
  - constructor.
  - repeat constructor.
Defined.

(** A stored path with a NUL byte comes back cut there. *)
Example ruby_search_path_cuts_at_nul :
  fst (ruby_search_path
         (snd (ruby_search Sample.W [Str ("/d1" +:+ String zero "x")] Sample.st0)))
  = Return [Str "/d1"].
Proof. reflexivity. Qed.

(** X8: [search_external] appends the string elements of its array, in order
    and whole, and passes over the others without an error;
    [search_external_path] gives them back, each as the C string of what was
    stored (cut at its first NUL byte, verbatim when there is none), and
    [reset] empties the list. *)
Theorem ruby_search_external_round_trip {VM : Type} (W : World VM)
    (elements : list VALUE) (st : state VM) :
  fst (ruby_search_external W elements st) = Return Qnil
  /\ _external_search_paths (snd (ruby_search_external W elements st))
     = _external_search_paths st ++ map (to_string W) (List.filter is_string elements)
  /\ fst (ruby_search_external_path (snd (ruby_search_external W elements st)))
     = Return (map rb_str_new_cstr (_external_search_paths st)
               ++ map (fun e => rb_str_new_cstr (to_string W e))
                    (List.filter is_string elements))
  /\ (Forall (fun path => nul_free path = true) (_external_search_paths st) ->
      Forall (fun e => nul_free (to_string W e) = true) (List.filter is_string elements) ->
      fst (ruby_search_external_path (snd (ruby_search_external W elements st)))
      = Return (map Str (_external_search_paths st) ++ List.filter is_string elements))
  /\ fst (ruby_search_external_path
            (snd (ruby_reset W (snd (ruby_search_external W elements st)))))
     = Return [].
Proof.
  assert (Hcut : fst (ruby_search_external_path (snd (ruby_search_external W elements st)))
    = Return (map rb_str_new_cstr (_external_search_paths st)
              ++ map rb_str_new_cstr (map (to_string W) (List.filter is_string elements)))).
  { unfold ruby_search_external_path, ruby_search_external. simpl. f_equal.
    by rewrite (proj1 (search_external_fold W elements st)), map_app. }
  split; [reflexivity|]. split; [apply search_external_fold|].
  split; [|split; [|reflexivity]].
  - rewrite Hcut. by rewrite <- list_fmap_compose.
  - intros Hold Hnew. rewrite Hcut. f_equal.
    rewrite (c_strings_verbatim _ Hold).
    rewrite (c_strings_verbatim _ (strings_nul_free W elements Hnew)).
    f_equal. apply strings_round_trip.
Qed.

Lemma ruby_search_external_round_trip_witness :
  fst (ruby_search_external_path
         (snd (ruby_search_external Sample.W [Str "/ext"; Qnil; Str "/more"] Sample.st0)))
  = Return ([] ++ [Str "/ext"; Str "/more"]).
Proof.
  apply (ruby_search_external_round_trip Sample.W [Str "/ext"; Qnil; Str "/more"]
           Sample.st0).
  - constructor.
  - repeat constructor.
Defined.

(** X9: the native collection is populated once: [facts] is idempotent, and
    once the collection holds a value, external search paths given later do
    not reach it. *)
Theorem facts_populates_once {VM : Type} (W : World VM) (st : state VM) :
  facts W (facts W st) = facts W st
  /\ (_collection st <> ∅ ->
      facts W st = st
      /\ forall elements,
           _collection (facts W (snd (ruby_search_external W elements st)))
           = _collection st).
Proof.
  split.
  - unfold facts at 2. case_decide as Hempty.
    + unfold facts. simpl. rewrite (decide_True _ _ Hempty).
      case_decide as Hagain; [|done].
      rewrite Hempty in *. by rewrite !Hagain.
    + unfold facts. by rewrite decide_False.
  - intros Hfull. split; [unfold facts; by rewrite decide_False|].
    intros elements. unfold ruby_search_external. simpl.
    pose proof (proj2 (search_external_fold W elements st)) as Hcoll.
    unfold facts. rewrite decide_False by (by rewrite Hcoll). exact Hcoll.
Qed.

Lemma facts_populates_once_witness :
  facts Sample.W (facts Sample.W Sample.st0) = facts Sample.W Sample.st0
  /\ forall elements,
       _collection (facts Sample.W
                      (snd (ruby_search_external Sample.W elements (facts Sample.W Sample.st0))))
       = _collection (facts Sample.W Sample.st0).
Proof.
  split.
  - apply (facts_populates_once Sample.W Sample.st0).
  - apply (proj2 (facts_populates_once Sample.W (facts Sample.W Sample.st0))).
    intros Hempty.
    assert (Hkernel : _collection (facts Sample.W Sample.st0) !! "kernel"
                      = Some (Str "Linux")) by reflexivity.
    rewrite Hempty, lookup_empty in Hkernel. discriminate.
Defined.

(** ** Messages logged once *)

Lemma ruby_debugonce_warning_set {VM : Type} (W : World VM)
    (message : VALUE) (ms : messages) (st : state VM) :
  _warning_messages (fst (snd (ruby_debugonce W message ms st))) = _warning_messages ms.
Proof. unfold ruby_debugonce. by case_decide. Qed.

(** X10: [debugonce] logs a message the first time it is given and never
    again: the call leaves the message in the debug set, adds one debug line
    exactly when the message was not there, and a second call with the same
    message changes nothing; the warning set is not touched.  [debug] logs on
    every call. *)
Theorem ruby_debugonce_once {VM : Type} (W : World VM)
    (message : VALUE) (ms : messages) (st : state VM) :
  let msg := to_string W message in
  let r := ruby_debugonce W message ms st in
  let ms1 := fst (snd r) in
  let st1 := snd (snd r) in
  fst r = Return Qnil
  /\ msg ∈ _debug_messages ms1
  /\ _warning_messages ms1 = _warning_messages ms
  /\ log st1 = log st ++ (if decide (msg ∈ _debug_messages ms) then [] else [(LOG_DEBUG, msg)])
  /\ ruby_debugonce W message ms1 st1 = (Return Qnil, (ms1, st1))
  /\ log (snd (ruby_debug W message (snd (ruby_debug W message st))))
     = log st ++ [(LOG_DEBUG, msg); (LOG_DEBUG, msg)].
Proof.
  intros msg r ms1 st1. unfold ms1, st1, r, ruby_debugonce. fold msg.
  destruct (decide (msg ∈ _debug_messages ms)) as [Hseen|Hnew]; simpl.
  - rewrite app_nil_r. rewrite decide_True by done.
    repeat split; try done. by rewrite <- app_assoc.
  - rewrite decide_True by set_solver.
    repeat split; try done; [set_solver | by rewrite <- app_assoc].
Qed.

(** X11: [warnonce] does the same on the warning set, and the two sets are
    apart: a message already given to [debugonce] is still logged, once, by
    [warnonce]. *)
Theorem ruby_warnonce_once {VM : Type} (W : World VM)
    (message : VALUE) (ms : messages) (st : state VM) :
  let msg := to_string W message in
  let r := ruby_warnonce W message ms st in
  let ms1 := fst (snd r) in
  let st1 := snd (snd r) in
  fst r = Return Qnil
  /\ msg ∈ _warning_messages ms1
  /\ _debug_messages ms1 = _debug_messages ms
  /\ log st1 = log st ++ (if decide (msg ∈ _warning_messages ms) then [] else [(LOG_WARNING, msg)])
  /\ ruby_warnonce W message ms1 st1 = (Return Qnil, (ms1, st1))
  /\ (msg ∉ _warning_messages ms ->
      let d := ruby_debugonce W message ms st in
      log (snd (snd (ruby_warnonce W message (fst (snd d)) (snd (snd d)))))
      = log (snd (snd d)) ++ [(LOG_WARNING, msg)]).
Proof.
  intros msg r ms1 st1. unfold ms1, st1, r, ruby_warnonce. fold msg.
  assert (Hapart : msg ∉ _warning_messages ms ->
      let d := ruby_debugonce W message ms st in
      log (snd (snd (ruby_warnonce W message (fst (snd d)) (snd (snd d)))))
      = log (snd (snd d)) ++ [(LOG_WARNING, msg)]).
  { intros Hnew d.
    pose proof (ruby_debugonce_warning_set W message ms st) as Hwarn.
    fold d in Hwarn. unfold ruby_warnonce. fold msg.
    rewrite decide_False by (by rewrite Hwarn). reflexivity. }
  destruct (decide (msg ∈ _warning_messages ms)) as [Hseen|Hnew]; simpl.
  - rewrite app_nil_r. rewrite decide_True by done. repeat split; try done.
  - rewrite decide_True by set_solver.
    repeat split; try done. set_solver.
Qed.

Lemma ruby_warnonce_once_witness :
  let d := ruby_debugonce Sample.W (Str "x") (mk_messages ∅ ∅) Sample.st0 in
  log (snd (snd (ruby_warnonce Sample.W (Str "x") (fst (snd d)) (snd (snd d)))))
  = log (snd (snd d)) ++ [(LOG_WARNING, "x")].
Proof.
  apply (ruby_warnonce_once Sample.W (Str "x") (mk_messages ∅ ∅) Sample.st0).
  simpl. set_solver.
Defined.

(** ** Arguments of the entry points *)

(** X12: [add], [define_fact] and [execute] called with no argument or with
    more than two raise [ArgumentError], naming the count, before anything
    else happens: the state is unchanged and no block is evaluated. *)
Theorem wrong_arity_raises {VM : Type} (W : World VM)
    (argv : list VALUE) (blk : option (block VM)) (st : state VM) :
  (length argv = 0 \/ 2 < length argv)%nat ->
  let error := Exc rb_eArgError (wrong_number_of_arguments (length argv)) in
  ruby_add W argv blk st = (Raised error, st)
  /\ ruby_define_fact W argv blk st = (Raised error, st)
  /\ ruby_execute W argv st = (Raised error, st).
Proof.
  intros Hargc.
  destruct argv as [|a0 [|a1 [|a2 rest]]]; simpl in Hargc; try lia; by repeat split.
Qed.

Lemma wrong_arity_raises_witness :
  ruby_add Sample.W [Str "a"; Qnil; Qnil] (Some Sample.failing_block) Sample.st0
  = (Raised (Exc rb_eArgError "wrong number of arguments (3 for 2)"), Sample.st0)
  /\ ruby_define_fact Sample.W [Str "a"; Qnil; Qnil] (Some Sample.failing_block) Sample.st0
  = (Raised (Exc rb_eArgError "wrong number of arguments (3 for 2)"), Sample.st0)
  /\ ruby_execute Sample.W [Str "a"; Qnil; Qnil] Sample.st0
  = (Raised (Exc rb_eArgError "wrong number of arguments (3 for 2)"), Sample.st0).
Proof.
  apply (wrong_arity_raises Sample.W [Str "a"; Qnil; Qnil] (Some Sample.failing_block)
           Sample.st0).
  right. simpl. lia.
Defined.

(** X13: [add] and [define_fact] given a name that is neither a string nor a
    symbol raise [TypeError] from [create_fact]: no fact is created, the
    options are not read, no resolution is defined, the block is not
    evaluated, and the state is unchanged. *)
Theorem bad_name_raises {VM : Type} (W : World VM)
    (argv0 : VALUE) (rest : list VALUE) (blk : option (block VM)) (st : state VM) :
  is_symbol argv0 = false ->
  is_string argv0 = false ->
  (length rest <= 1)%nat ->
  ruby_add W (argv0 :: rest) blk st = (Raised expected_name, st)
  /\ ruby_define_fact W (argv0 :: rest) blk st = (Raised expected_name, st).
Proof.
  intros Hsym Hstr Hargc.
  destruct rest as [|o [|o' rest]]; simpl in Hargc; try lia;
    unfold ruby_add, ruby_define_fact, bind;
    by rewrite create_fact_other.
Qed.

Lemma bad_name_raises_witness :
  ruby_add Sample.W [Fixnum 5; Hash []] (Some Sample.failing_block) Sample.st0
  = (Raised expected_name, Sample.st0)
  /\ ruby_define_fact Sample.W [Fixnum 5; Hash []] (Some Sample.failing_block) Sample.st0
  = (Raised expected_name, Sample.st0).
Proof.
  apply (bad_name_raises Sample.W (Fixnum 5) [Hash []] (Some Sample.failing_block)
           Sample.st0); [reflexivity | reflexivity | simpl; lia].
Defined.

(** X14: [create_fact] looks up before it creates: called again under any
    spelling of a name it has registered, it answers the same handle and
    leaves the state as it is (no second fact object, the collection not
    touched); so does [define_fact] without a block. *)
Theorem create_fact_twice {VM : Type} (W : World VM)
    (name name' : VALUE) (st st1 : state VM) (h : VALUE) :
  create_fact W name st = (Return h, st1) ->
  is_string name' || is_symbol name' = true ->
  to_string W (normalize name') = to_string W (normalize name) ->
  create_fact W name' st1 = (Return h, st1)
  /\ ruby_define_fact W [name'] None st1 = (Return h, st1).
Proof.
  intros Hcreate Hname Hkey.
  destruct (create_fact_registers W _ _ _ _ Hcreate) as (id & -> & Hreg).
  assert (Hagain : create_fact W name' st1 = (Return (FactObj id), st1)).
  { unfold create_fact.
    replace (negb (is_string name') && negb (is_symbol name')) with false
      by (destruct (is_string name'), (is_symbol name'); done).
    by rewrite Hkey, Hreg. }
  split; [exact Hagain|]. unfold ruby_define_fact, bind. by rewrite Hagain.
Qed.

Lemma create_fact_twice_witness :
  create_fact Sample.W (Str "UPTIME") Sample.st_added = (Return (FactObj 0), Sample.st_added)
  /\ ruby_define_fact Sample.W [Str "UPTIME"] None Sample.st_added
     = (Return (FactObj 0), Sample.st_added).
Proof.
  apply (create_fact_twice Sample.W (Symbol "uptime") (Str "UPTIME") Sample.st0);
    [vm_compute; reflexivity | reflexivity | reflexivity].
Defined.

(** X15: [add] takes the resolution name out of the options hash: the value
    under [:name] goes to [define_resolution] as the name, and the hash passed
    along no longer has that key while every other symbol key keeps its
    value. *)
Theorem ruby_add_reads_name {VM : Type} (W : World VM)
    (argv0 : VALUE) (kvs : list (VALUE * VALUE)) (blk : option (block VM))
    (st st1 : state VM) (f : nat) :
  create_fact W argv0 st = (Return (FactObj f), st1) ->
  ruby_add W [argv0; Hash kvs] blk st
  = match define_and_evaluate W f (hash_lookup_sym kvs "name")
            (Hash (hash_delete_sym kvs "name")) blk st1 with
    | (Raised tag, st2) => (Raised tag, fact_set_value f Qnil st2)
    | (Return _, st2) => (Return (FactObj f), st2)
    end
  /\ hash_lookup_sym (hash_delete_sym kvs "name") "name" = Qnil
  /\ (forall key, key <> "name" ->
        hash_lookup_sym (hash_delete_sym kvs "name") key = hash_lookup_sym kvs key).
Proof.
  intros Hcreate. split; [|split].
  - by apply (ruby_add_protected W argv0 [Hash kvs] blk st st1 f).
  - induction kvs as [|[k v] kvs IH]; [done|].
    destruct k; simpl; try exact IH.
    destruct (String.eqb s "name") eqn:Hk; [exact IH|]. simpl. by rewrite Hk.
  - intros key Hkey. induction kvs as [|[k v] kvs IH]; [done|].
    destruct k; simpl; try exact IH.
    destruct (String.eqb s "name") eqn:Hk; simpl.
    + apply String.eqb_eq in Hk. subst s.
      destruct (String.eqb "name" key) eqn:Hk'; [|exact IH].
      apply String.eqb_eq in Hk'. congruence.
    + by rewrite IH.
Qed.

Lemma ruby_add_reads_name_witness :
  ruby_add Sample.W [Symbol "uptime"; Hash [(Symbol "name", Str "bad"); (Symbol "weight", Fixnum 3)]]
    None Sample.st0
  = match define_and_evaluate Sample.W 0 (Str "bad") (Hash [(Symbol "weight", Fixnum 3)])
            None Sample.st_added with
    | (Raised tag, st2) => (Raised tag, fact_set_value 0 Qnil st2)
    | (Return _, st2) => (Return (FactObj 0), st2)
    end.
Proof.
  apply (ruby_add_reads_name Sample.W (Symbol "uptime")
           [(Symbol "name", Str "bad"); (Symbol "weight", Fixnum 3)] None
           Sample.st0 Sample.st_added 0).
  vm_compute. reflexivity.
Defined.

(** ** Commands *)

(** X16: [exec] never raises: it answers nil for a command that failed and,
    for one that succeeded, its output as a C string (cut at the first NUL
    byte, hence the whole output when it has none); it leaves the state
    alone. *)
Theorem ruby_exec_never_raises {VM : Type} (W : World VM)
    (command : VALUE) (st : state VM) :
  let result := execute W "sh" ["-c"; expand_command W (to_string W command)] in
  ruby_exec W command st
  = (Return (if fst result then rb_str_new_cstr (snd result) else Qnil), st)
  /\ (fst result = true -> nul_free (snd result) = true ->
      ruby_exec W command st = (Return (Str (snd result)), st)).
Proof.
  simpl. unfold ruby_exec, execute_command.
  destruct (fst (execute W "sh" ["-c"; expand_command W (to_string W command)])).
  - split; [done|]. intros _ Hfree. unfold ret, rb_str_new_cstr.
    by rewrite c_str_nul_free.
  - split; [done | discriminate].
Qed.

Lemma ruby_exec_never_raises_witness :
  ruby_exec Sample.W (Str "echo hi") Sample.st0 = (Return (Str "hi"), Sample.st0).
Proof.
  apply (ruby_exec_never_raises Sample.W (Str "echo hi") Sample.st0); reflexivity.
Defined.

(** X17: for a command that succeeds, [execute] answers its output, as a C
    string (cut at the first NUL byte), whatever the options hash says:
    neither [on_fail: :raise] nor a default value shows. *)
Theorem ruby_execute_success {VM : Type} (W : World VM)
    (command : VALUE) (kvs : list (VALUE * VALUE)) (st : state VM) :
  let result := execute W "sh" ["-c"; expand_command W (to_string W command)] in
  fst result = true ->
  ruby_execute W [command] st = (Return (rb_str_new_cstr (snd result)), st)
  /\ ruby_execute W [command; Hash kvs] st = (Return (rb_str_new_cstr (snd result)), st)
  /\ (nul_free (snd result) = true ->
      ruby_execute W [command; Hash kvs] st = (Return (Str (snd result)), st)).
Proof.
  intros result Hok. subst result.
  assert (Hboth : ruby_execute W [command; Hash kvs] st
    = (Return (rb_str_new_cstr
                 (snd (execute W "sh" ["-c"; expand_command W (to_string W command)]))), st)).
  { unfold ruby_execute, execute_command. rewrite Hok.
    by destruct (is_symbol (on_fail_option (Hash kvs))
                 && String.eqb (to_string W (on_fail_option (Hash kvs))) "raise"). }
  split; [unfold ruby_execute, execute_command; by rewrite Hok|].
  split; [exact Hboth|].
  intros Hfree. rewrite Hboth. unfold rb_str_new_cstr. by rewrite c_str_nul_free.
Qed.

Lemma ruby_execute_success_witness :
  ruby_execute Sample.W [Str "echo hi"] Sample.st0 = (Return (Str "hi"), Sample.st0)
  /\ ruby_execute Sample.W [Str "echo hi"; Hash [(Symbol "on_fail", Symbol "raise")]] Sample.st0
     = (Return (Str "hi"), Sample.st0).
Proof.
  pose proof (ruby_execute_success Sample.W (Str "echo hi")
                [(Symbol "on_fail", Symbol "raise")] Sample.st0 ltac:(reflexivity))
    as (Hone & _ & Htwo).
  split; [exact Hone | apply Htwo; reflexivity].
Defined.

(** ** Directories of the load path *)

(** X18: the first loop of [initialize_search_paths] takes from the load path
    exactly the [facter] subdirectories of the entries that canonicalize and
    do not hold [facter.rb] themselves: an entry that hosts facter itself, one
    that does not canonicalize and one without a [facter] directory give
    nothing. *)
Theorem load_path_directories_spec {VM : Type} (W : World VM)
    (load_path : list string) (entry : string) :
  entry ∈ load_path_directories W load_path
  <-> exists directory dir,
        directory ∈ load_path
        /\ canonical W directory = Some dir
        /\ is_regular_file W (path_append dir "facter.rb") = false
        /\ is_directory W (path_append dir "facter") = true
        /\ entry = path_append dir "facter".
Proof.
  induction load_path as [|d ds IH].
  - simpl. split; [intros Hin; by apply elem_of_nil in Hin|].
    intros (directory & dir & Hin & _). by apply elem_of_nil in Hin.
  - change (load_path_directories W (d :: ds))
      with (match canonical W d with
            | None => load_path_directories W ds
            | Some dir =>
                if is_regular_file W (path_append dir "facter.rb")
                then load_path_directories W ds
                else if is_directory W (path_append dir "facter")
                     then path_append dir "facter" :: load_path_directories W ds
                     else load_path_directories W ds
            end).
    assert (Hrest : (exists directory dir,
        directory ∈ ds
        /\ canonical W directory = Some dir
        /\ is_regular_file W (path_append dir "facter.rb") = false
        /\ is_directory W (path_append dir "facter") = true
        /\ entry = path_append dir "facter")
      -> exists directory dir,
        directory ∈ d :: ds
        /\ canonical W directory = Some dir
        /\ is_regular_file W (path_append dir "facter.rb") = false
        /\ is_directory W (path_append dir "facter") = true
        /\ entry = path_append dir "facter").
    { intros (directory & dir & Hin & H). exists directory, dir.
      split; [by apply elem_of_cons; right | exact H]. }
    destruct (canonical W d) as [c|] eqn:Hc.
    + destruct (is_regular_file W (path_append c "facter.rb")) eqn:Hhost.
      * rewrite IH. split; [exact Hrest|].
        intros (directory & dir & Hin & Hcan & Hfile & Hdir & ->).
        apply elem_of_cons in Hin as [->|Hin]; [congruence|]. eauto 8.
      * destruct (is_directory W (path_append c "facter")) eqn:Hsub.
        -- rewrite elem_of_cons, IH. split.
           ++ intros [->|Hin]; [|by apply Hrest].
              exists d, c. repeat split; try done. by apply elem_of_cons; left.
           ++ intros (directory & dir & Hin & Hcan & Hfile & Hdir & ->).
              apply elem_of_cons in Hin as [->|Hin].
              ** left. congruence.
              ** right. eauto 8.
        -- rewrite IH. split; [exact Hrest|].
           intros (directory & dir & Hin & Hcan & Hfile & Hdir & ->).
           apply elem_of_cons in Hin as [->|Hin]; [congruence|]. eauto 8.
    + rewrite IH. split; [exact Hrest|].
      intros (directory & dir & Hin & Hcan & Hfile & Hdir & ->).
      apply elem_of_cons in Hin as [->|Hin]; [congruence|]. eauto 8.
Qed.

(** ** Nested scoped overrides *)

(** X19: scoped overrides nest: two acquisitions, of one variable or of two,
    released in reverse order give back the environment they started from;
    released in the order of acquisition they still do when the variables
    differ. *)
Theorem scoped_env_nested (var1 val1 var2 val2 : string) (env : gmap string string) :
  let '(old1, env1) := ScopedEnv.scoped_env var1 val1 env in
  let '(old2, env2) := ScopedEnv.scoped_env var2 val2 env1 in
  env2 !! var2 = Some val2
  /\ ScopedEnv.restore old2 env2 = env1
  /\ ScopedEnv.restore old1 (ScopedEnv.restore old2 env2) = env
  /\ (var1 <> var2 -> ScopedEnv.restore old2 (ScopedEnv.restore old1 env2) = env).
Proof.
  unfold ScopedEnv.scoped_env, ScopedEnv.restore, ScopedEnv.environment_get,
    ScopedEnv.environment_set, ScopedEnv.environment_clear; simpl.
  assert (Hround : forall (var val : string) (e : gmap string string),
            match e !! var with
            | Some oldval => <[var := oldval]> (<[var := val]> e)
            | None => delete var (<[var := val]> e)
            end = e).
  { intros var val e. destruct (e !! var) as [oldval|] eqn:Hold.
    - rewrite insert_insert_eq. by apply insert_id.
    - rewrite delete_insert_eq. by apply delete_id. }
  split; [apply lookup_insert_eq|]. split; [apply Hround|].
  split; [by rewrite !Hround|].
  intros Hne. rewrite lookup_insert_ne by done.
  apply map_eq. intros k.
  destruct (env !! var1) as [o1|] eqn:H1; destruct (env !! var2) as [o2|] eqn:H2;
    destruct (decide (k = var1)) as [Hk1|Hk1]; destruct (decide (k = var2)) as [Hk2|Hk2];
    try congruence; try subst k;
    repeat (first [ rewrite lookup_insert_eq
                  | rewrite lookup_delete_eq
                  | rewrite lookup_insert_ne by congruence
                  | rewrite lookup_delete_ne by congruence ]);
    congruence.
Qed.

Lemma scoped_env_nested_witness :
  let env : gmap string string := {[ "FACTERLIB" := "/a" ]} in
  let '(old1, env1) := ScopedEnv.scoped_env "FACTERLIB" "/b" env in
  let '(old2, env2) := ScopedEnv.scoped_env "LANG" "C" env1 in
  ScopedEnv.restore old2 (ScopedEnv.restore old1 env2) = env.
Proof.
  apply (scoped_env_nested "FACTERLIB" "/b" "LANG" "C" {[ "FACTERLIB" := "/a" ]}).
  discriminate.
Defined.
